(** * spotify-api.js: the current-user manager and the Track structures

    A shallow embedding of [src/managers/UserClient.ts] and of the
    [Track] / [LinkedTrack] structures, with the statements of the
    library's specification proved (or refuted) against it.

    JavaScript objects are finite maps from property names to values,
    an assignment [this.f = v] is an insertion, a promise is the
    completion it settles to (resolved value or rejection). *)

From stdpp Require Import gmap strings list fin_maps.
From Stdlib Require Import ZArith.

Open Scope string_scope.

(** ** JavaScript values *)

Module JS.

(** The values a parsed JSON payload is made of, plus [undefined], which
    reading an absent property produces.  The numbers of the payloads read
    here (counts, durations, positions) are integers. *)
#[warnings="-register-all"]
Inductive JSValue : Type :=
  | JUndefined
  | JNull
  | JBool (b : bool)
  | JNum (n : Z)
  | JStr (s : string)
  | JArr (elems : list JSValue)
  | JObj (props : gmap string JSValue).

(** What a call can raise.  [SpotifyAPIError] is the library's own error
    class (imported from "../Error"), built from its message; the other
    two are the runtime's; [Rejected] is whatever the transport rejects
    with. *)
Inductive Error : Type :=
  | TypeError
  | RangeError
  | SpotifyAPIError (message : string)
  | Rejected (reason : string).

(** The completion of an evaluation, or the settlement of a promise. *)
Inductive Completion (A : Type) : Type :=
  | Return (a : A)
  | Throw (e : Error).
Arguments Return {A} a.
Arguments Throw {A} e.

#[global] Instance Completion_ret : MRet Completion := @Return.
#[global] Instance Completion_bind : MBind Completion :=
  λ A B f c, match c with Return a => f a | Throw e => Throw e end.

(** ToBoolean: the test of [if (x)], [!x], [x ? a : b], [x || y] and
    the conversion [Boolean(x)]. *)
Definition truthy (v : JSValue) : bool :=
  match v with
  | JUndefined | JNull => false
  | JBool b => b
  | JNum n => negb (n =? 0)%Z
  | JStr s => negb (String.eqb s "")
  | JArr _ | JObj _ => true
  end.

(** [x == null]: loose equality with null holds of null and undefined only. *)
Definition loosely_null (v : JSValue) : bool :=
  match v with
  | JUndefined | JNull => true
  | _ => false
  end.

(** Reading a property of an object that may lack it. *)
Definition prop (o : gmap string JSValue) (k : string) : JSValue :=
  default JUndefined (o !! k).

(** [v.k] for a property name [k] that no built-in prototype defines (all
    the names read in these sources are such): a TypeError on null and
    undefined, the own property of an object, undefined elsewhere. *)
Definition get (v : JSValue) (k : string) : Completion JSValue :=
  match v with
  | JUndefined | JNull => Throw TypeError
  | JObj o => Return (prop o k)
  | _ => Return JUndefined
  end.

(** [k in v], for such a name: a TypeError unless [v] is an object. *)
Definition has (k : string) (v : JSValue) : Completion bool :=
  match v with
  | JObj o => Return (bool_decide (is_Some (o !! k)))
  | JArr _ => Return false
  | _ => Throw TypeError
  end.

(** [ids.join(',')] on an array of strings. *)
Definition join (sep : string) (l : list string) : string :=
  String.concat sep l.

(** [ids.map(() => false)] *)
Definition all_false (ids : list string) : JSValue :=
  JArr (map (λ _, JBool false) ids).

(** A state-and-exception monad: a method that mutates [this] or the
    client's cache.  What was mutated before a throw stays mutated. *)
Definition M (S A : Type) : Type := S → Completion A * S.

#[global] Instance M_ret {S} : MRet (M S) := λ A a σ, (Return a, σ).
#[global] Instance M_bind {S} : MBind (M S) :=
  λ A B f m σ, match m σ with
               | (Return a, σ') => f a σ'
               | (Throw e, σ') => (Throw e, σ')
               end.

(** A computation that leaves the state alone. *)
Definition lift {S A} (c : Completion A) : M S A := λ σ, (c, σ).

Definition modify {S} (f : S → S) : M S unit := λ σ, (Return tt, f σ).

Definition get_state {S} : M S S := λ σ, (Return σ, σ).

(** [this.f = v] *)
Definition assign (f : string) (v : JSValue) : M (gmap string JSValue) unit :=
  modify (insert f v).

(** [this.f = data.k] *)
Definition copy (f : string) (data : JSValue) (k : string)
  : M (gmap string JSValue) unit :=
  v ← lift (get data k); assign f v.

(** The outcome of a method on [this] that raises TypeErrors only. *)
Definition only_TypeError {A} (r : Completion A * gmap string JSValue) : Prop :=
  ∀ e, r.1 = Throw e → e = TypeError.

(** A method on [this] that never touches the property [k]. *)
Definition keeps {A} (k : string) (m : M (gmap string JSValue) A) : Prop :=
  ∀ this, (m this).2 !! k = this !! k.

(** [data.map(f)] with an effectful callback, left to right. *)
Fixpoint mapM {S A B} (f : A → M S B) (l : list A) : M S (list B) :=
  match l with
  | [] => mret []
  | x :: l' => y ← f x; ys ← mapM f l'; mret (y :: ys)
  end.

(** [l.map(f)] where the callback may throw. *)
Fixpoint mapC {A B} (f : A → Completion B) (l : list A) : Completion (list B) :=
  match l with
  | [] => mret []
  | x :: l' => y ← f x; ys ← mapC f l'; mret (y :: ys)
  end.

(** [v.map(f)]: only an array has a [map] to call; on anything else the
    property is missing or (in a parsed payload) not a function. *)
Definition map_method (v : JSValue) (f : JSValue → Completion JSValue)
  : Completion JSValue :=
  match v with
  | JArr elems => ys ← mapC f elems; mret (JArr ys)
  | _ => Throw TypeError
  end.

(** The first UTF-16 code unit of a string, as a string.  Strings are
    held as their UTF-8 bytes: a character of one, two or three bytes is
    one code unit and is returned whole; of a character of four bytes the
    first code unit is its high surrogate, returned in the three-byte
    form of a lone surrogate. *)
Definition first_unit (s : string) : option string :=
  match s with
  | EmptyString => None
  | String b0 rest =>
      let n0 := Ascii.N_of_ascii b0 in
      if (n0 <? 128)%N then Some (String b0 "")
      else if (n0 <? 224)%N then Some (String.substring 0 2 s)
      else if (n0 <? 240)%N then Some (String.substring 0 3 s)
      else
        match rest with
        | String b1 (String b2 _) =>
            let plane := (N.land n0 7 * 4 + N.land (Ascii.N_of_ascii b1) 48 / 16)%N in
            let high :=
              (55296 + (plane - 1) * 64
               + N.land (Ascii.N_of_ascii b1) 15 * 4
               + N.land (Ascii.N_of_ascii b2) 48 / 16)%N in
            Some (String (Ascii.ascii_of_N 237)
                    (String (Ascii.ascii_of_N (128 + N.land (high / 64) 63))
                       (String (Ascii.ascii_of_N (128 + N.land high 63)) "")))
        | _ => Some (String b0 "")
        end
  end.

(** [v[0]]: a TypeError on null and undefined, the first element of an
    array, the first code unit of a string, the property ["0"] of an
    object, undefined elsewhere. *)
Definition first_elem (v : JSValue) : Completion JSValue :=
  match v with
  | JUndefined | JNull => Throw TypeError
  | JArr elems => Return (default JUndefined (head elems))
  | JStr s => Return (from_option JStr JUndefined (first_unit s))
  | JObj o => Return (prop o "0")
  | _ => Return JUndefined
  end.

(** A list of assignments, the latest first, carried out on [this]. *)
Definition writes (w : list (string * JSValue)) (this : gmap string JSValue)
  : gmap string JSValue :=
  foldr (λ kv, insert kv.1 kv.2) this w.

(** A method body that only assigns: its completion and its assignments
    do not depend on what [this] holds. *)
Definition writer {A} (m : M (gmap string JSValue) A) : Prop :=
  ∃ (r : Completion A) (w : list (string * JSValue)),
    ∀ this, m this = (r, writes w this).

(** The same, for a body that ends in [return this]. *)
Definition writer_of_this
    (m : M (gmap string JSValue) (gmap string JSValue)) : Prop :=
  ∃ (r : Completion unit) (w : list (string * JSValue)),
    ∀ this, m this = (match r with
                      | Return _ => Return (writes w this)
                      | Throw e => Throw e
                      end, writes w this).

End JS.

Import JS.

(** ** The HTTP collaborator *)

(** The second argument of [client.fetch(path, { method, params })]. *)
Record FetchOptions : Type := {
  method : option string;
  params : option (gmap string JSValue)
}.

(** ** UserClient: the calls that answer with booleans *)

Module UserClient.

Section Flags.

(** [this.client.fetch]: the completion the returned promise settles to. *)
Variable fetch : string → option FetchOptions → Completion JSValue.

Definition followsArtists (ids : list string) : Completion JSValue :=
  x ← fetch "/me/following/contains"
        (Some {| method := None;
           params := Some {[ "type" := JStr "artist";
                             "ids" := JStr (join "," ids) ]} |});
  mret (if truthy x then x else all_false ids).

Definition followsUsers (ids : list string) : Completion JSValue :=
  x ← fetch "/me/following/contains"
        (Some {| method := None;
           params := Some {[ "type" := JStr "user";
                             "ids" := JStr (join "," ids) ]} |});
  mret (if truthy x then x else all_false ids).

Definition saveAlbums (ids : list string) : Completion bool :=
  x ← fetch "/me/albums"
        (Some {| method := Some "PUT";
           params := Some {[ "ids" := JStr (join "," ids) ]} |});
  mret (negb (loosely_null x)).

Definition removeAlbums (ids : list string) : Completion bool :=
  x ← fetch "/me/albums"
        (Some {| method := Some "DELETE";
           params := Some {[ "ids" := JStr (join "," ids) ]} |});
  mret (negb (loosely_null x)).

Definition hasAlbums (ids : list string) : Completion JSValue :=
  x ← fetch "/me/albums/contains"
        (Some {| method := None;
           params := Some {[ "ids" := JStr (join "," ids) ]} |});
  mret (all_false ids).

End Flags.

(** *** patchInfo *)

Section Profile.

Variable fetch : string → option FetchOptions → Completion JSValue.

(** The fields a [new UserClient(client)] starts with: only [type] has an
    initialiser.  ([client] is the collaborator the methods are given.) *)
Definition constructor : gmap string JSValue := {[ "type" := JStr "user" ]}.

(** The state is [this]; the method returns it. *)
Definition patchInfo : M (gmap string JSValue) (gmap string JSValue) :=
  data ← lift (fetch "/me" None);
  if negb (truthy data) then
    lift (Throw (SpotifyAPIError
      "Could not load private user data from the user authorized token."))
  else
    copy "displayName" data "display_name";;
    copy "id" data "id";;
    copy "uri" data "uri";;
    copy "images" data "images";;
    followers ← lift (get data "followers");
    copy "totalFollowers" followers "total";;
    copy "externalURL" data "external_urls";;
    copy "email" data "email";;
    copy "product" data "product";;
    copy "country" data "country";;
    explicit_content ← lift (get data "explicit_content");
    (if truthy explicit_content then
       filter_enabled ← lift (get explicit_content "filter_enabled");
       filter_locked ← lift (get explicit_content "filter_locked");
       assign "explicitContent"
         (JObj {[ "filterEnabled" := filter_enabled;
                  "filterLocked" := filter_locked ]})
     else mret tt);;
    get_state.

End Profile.

(** *** The calls that answer with lists *)

Section Lists.

(** The client's cache, the structures the cache helpers of "../Cache"
    hand out, and the helpers themselves: the methods below only pass
    the fetched items on to them. *)
Context {Cache Struct SavedStruct : Type}.
Variable fetch : string → option FetchOptions → Completion JSValue.
Variable createCacheStructArray :
  string → JSValue → M Cache (list Struct).
Variable createCacheSavedStructArray :
  string → JSValue → M Cache (list SavedStruct).

(** [options] is [None] when the caller leaves the argument out. *)
Definition getPlaylists (options : option (gmap string JSValue))
  : M Cache (list Struct) :=
  let options := default ∅ options in
  fetchedData ← lift (fetch "/me/playlists"
                        (Some {| method := None; params := Some options |}));
  if truthy fetchedData then
    items ← lift (get fetchedData "items");
    createCacheStructArray "playlists" items
  else mret [].

Definition getFollowingArtists (options : option (gmap string JSValue))
  : M Cache (list Struct) :=
  let options := default ∅ options in
  fetchedData ← lift (fetch "/me/following"
                        (Some {| method := None;
                                 params := Some (options ∪ {[ "type" := JStr "artist" ]}) |}));
  if truthy fetchedData then
    artists ← lift (get fetchedData "artists");
    items ← lift (get artists "items");
    createCacheStructArray "artists" items
  else mret [].

Definition getTopTracks (options : option (gmap string JSValue))
  : M Cache (list Struct) :=
  let options := default ∅ options in
  fetchedData ← lift (fetch "/me/top/tracks"
                        (Some {| method := None;
                                 params := Some {[ "time_range" := prop options "timeRange";
                                                   "limit" := prop options "limit";
                                                   "offset" := prop options "offset" ]} |}));
  if truthy fetchedData then
    items ← lift (get fetchedData "items");
    createCacheStructArray "tracks" items
  else mret [].

Definition getTopArtists (options : option (gmap string JSValue))
  : M Cache (list Struct) :=
  let options := default ∅ options in
  fetchedData ← lift (fetch "/me/top/artists"
                        (Some {| method := None;
                                 params := Some {[ "time_range" := prop options "timeRange";
                                                   "limit" := prop options "limit";
                                                   "offset" := prop options "offset" ]} |}));
  if truthy fetchedData then
    items ← lift (get fetchedData "items");
    createCacheStructArray "artists" items
  else mret [].

(** No default here: a missing [options] is passed on as it is. *)
Definition getSavedAlbums (options : option (gmap string JSValue))
  : M Cache (list SavedStruct) :=
  fetchedData ← lift (fetch "/me/albums"
                        (Some {| method := None; params := options |}));
  if truthy fetchedData then
    items ← lift (get fetchedData "items");
    createCacheSavedStructArray "albums" items
  else mret [].

End Lists.

(** *** The calls handed on to other managers *)

Section Delegates.

(** [this.client.playlists.create(userID, playlist)] and
    [this.client.users.followsPlaylist(playlistID, userID)], from the
    managers of "../Client". *)
Variable playlists_create : JSValue → JSValue → Completion JSValue.
Variable users_followsPlaylist : string → JSValue → Completion JSValue.

Definition createPlaylist (playlist : JSValue) (this : gmap string JSValue)
  : Completion JSValue :=
  playlists_create (prop this "id") playlist.

Definition followsPlaylist (playlistID : string) (this : gmap string JSValue)
  : Completion JSValue :=
  x ← users_followsPlaylist playlistID (prop this "id");
  x0 ← first_elem x;
  mret (if truthy x0 then x0 else JBool false).

End Delegates.

End UserClient.

(** ** The cache-aware factory *)

Module Cache.

(** Modelled from the spec: the structure classes that "../Cache" builds
    (Playlist, Artist, Album, ...) are not among the sources.  The
    specification gives every entity an opaque identifier [id] copied
    verbatim from the raw item; a structure is its entity type tag, that
    identifier and the raw item it was built from. *)
Record Struct : Type := {
  struct_type : string;
  struct_id : JSValue;
  struct_data : JSValue
}.

(** Modelled from the spec: the cache object of "../Cache" is not among
    the sources.  Objects live in a heap and are known by their reference
    (the index at which they were allocated), so that being the same
    object is being the same reference; the cache is the lookup table
    from a type tag and an ID to the reference of the cached instance. *)
Record State : Type := {
  heap : list Struct;
  entries : gmap (string * string) nat
}.

(** The cache of a fresh client. *)
Definition empty : State := {| heap := []; entries := ∅ |}.

(** Modelled from the spec: the structure constructors are not among the
    sources; the identifier is the raw item's [id]. *)
Definition construct (tag : string) (raw : JSValue) : Completion Struct :=
  id ← get raw "id";
  mret {| struct_type := tag; struct_id := id; struct_data := raw |}.

(** Modelled from the spec: a newly constructed instance is a new object,
    with a reference no earlier object has. *)
Definition alloc (s : Struct) : M State nat :=
  λ σ, (Return (length (heap σ)),
        {| heap := heap σ ++ [s]; entries := entries σ |}).

(** Modelled from the spec: "a simple map lookup/insert", with no
    eviction. *)
Definition store (key : string * string) (r : nat) : M State unit :=
  modify (λ σ, {| heap := heap σ; entries := <[key := r]> (entries σ) |}).

(** Modelled from the spec: createCacheStruct of "../Cache" is not among
    the sources.  "Given an entity type tag, a client/cache context, and
    one raw item, return an existing cached instance if present under
    that ID, otherwise construct, store, and return a new one."  An item
    whose [id] is not a string has no ID to be looked up or stored under:
    it is constructed and returned. *)
Definition createCacheStruct (tag : string) (raw : JSValue) : M State nat :=
  id ← lift (get raw "id");
  match id with
  | JStr k =>
      σ ← get_state;
      match entries σ !! (tag, k) with
      | Some r => mret r
      | None =>
          s ← lift (construct tag raw);
          r ← alloc s;
          store (tag, k) r;;
          mret r
      end
  | _ => s ← lift (construct tag raw); alloc s
  end.

(** Modelled from the spec: createCacheStructArray of "../Cache" is not
    among the sources.  "Map each raw item through the cache-aware
    factory and return the resulting array"; [data.map] of something
    that is not an array is a TypeError. *)
Definition createCacheStructArray (tag : string) (data : JSValue)
  : M State (list nat) :=
  match data with
  | JArr items => mapM (createCacheStruct tag) items
  | _ => lift (Throw TypeError)
  end.

(** The cache context is well formed when every entry refers to an
    allocated instance of its type and ID, and two entries never share an
    instance. *)
Definition wf (σ : State) : Prop :=
  (∀ tag k r, entries σ !! (tag, k) = Some r →
     ∃ s, heap σ !! r = Some s ∧ struct_type s = tag ∧ struct_id s = JStr k)
  ∧ (∀ key1 key2 r, entries σ !! key1 = Some r → entries σ !! key2 = Some r →
       key1 = key2).

(** The cache context at a later time: after any number of further calls
    of the factory. *)
Inductive later : State → State → Prop :=
  | later_now σ : later σ σ
  | later_call σ tag raw σ' :
      later (createCacheStruct tag raw σ).2 σ' → later σ σ'.

(** The ID a raw item is cached under. *)
Definition raw_id (raw : JSValue) : option string :=
  match raw with
  | JObj o => match prop o "id" with JStr k => Some k | _ => None end
  | _ => None
  end.

End Cache.

(** ** Track structures *)

Module Track.

(** [new C(data)]: run the constructor body on a fresh object. *)
Definition new (body : JSValue → M (gmap string JSValue) unit) (data : JSValue)
  : Completion (gmap string JSValue) :=
  match body data ∅ with
  | (Return _, this) => Return this
  | (Throw e, _) => Throw e
  end.

(** [Object.defineProperty(this, 'data', { value: data, writable: false })] *)
Definition define_data (data : JSValue) : M (gmap string JSValue) unit :=
  modify (insert "data" data).

Definition LinkedTrack (data : JSValue) : M (gmap string JSValue) unit :=
  define_data data;;
  copy "externalUrls" data "external_urls";;
  copy "href" data "href";;
  copy "id" data "id";;
  copy "type" data "type";;
  copy "uri" data "uri".

Definition Track (data : JSValue) : M (gmap string JSValue) unit :=
  define_data data;;
  copy "availableMarkets" data "available_markets";;
  copy "discNumber" data "disc_number";;
  copy "duration" data "duration_ms";;
  copy "explicit" data "explicit";;
  copy "externalIds" data "external_ids";;
  copy "externalUrls" data "external_urls";;
  copy "href" data "href";;
  copy "id" data "id";;
  copy "name" data "name";;
  copy "popularity" data "popularity";;
  copy "previewUrl" data "preview_url";;
  copy "trackNumber" data "track_number";;
  copy "type" data "type";;
  copy "uri" data "uri";;
  copy "playable" data "is_playable";;
  copy "restrictions" data "restrictions";;
  is_local ← lift (get data "is_local");
  assign "local" (JBool (truthy is_local));;
  linked ← lift (has "linked_from" data);
  if (linked : bool) then copy "linkedFrom" data "linked_from" else mret tt.

(** The input key and the exposed field of each assignment of the two
    constructors, in the order of the source. *)
Definition LinkedTrack_fields : list (string * string) :=
  [ ("external_urls", "externalUrls"); ("href", "href"); ("id", "id");
    ("type", "type"); ("uri", "uri") ].

Definition Track_fields : list (string * string) :=
  [ ("available_markets", "availableMarkets"); ("disc_number", "discNumber");
    ("duration_ms", "duration"); ("explicit", "explicit");
    ("external_ids", "externalIds"); ("external_urls", "externalUrls");
    ("href", "href"); ("id", "id"); ("name", "name");
    ("popularity", "popularity"); ("preview_url", "previewUrl");
    ("track_number", "trackNumber"); ("type", "type"); ("uri", "uri");
    ("is_playable", "playable"); ("restrictions", "restrictions");
    ("is_local", "local"); ("linked_from", "linkedFrom") ].

Section Album.

(** [new SimplifiedAlbum(data)], from "./SimplifiedAlbum": the object it
    builds from whatever it is given. *)
Variable SimplifiedAlbum : JSValue → Completion JSValue.

(** [get album() { return new SimplifiedAlbum(this.album); }]

    [album] is an accessor on the prototype and no constructor gives a
    track an own [album], so [this.album] in the body calls the accessor
    again.  [stack] is the number of frames the call stack has room for;
    the runtime raises a RangeError when it is exhausted. *)
Fixpoint album (stack : nat) (this : gmap string JSValue)
  : Completion JSValue :=
  match stack with
  | O => Throw RangeError
  | S frames => a ← album frames this; SimplifiedAlbum a
  end.

End Album.

Section Accessors.

(** [new SimplifiedArtist(x)] from "./SimplifiedArtist", and the two
    calls of the [util] instance of "../Spotify". *)
Variable SimplifiedArtist : JSValue → Completion JSValue.
Variable util_getCodeImage : JSValue → Completion JSValue.
Variable util_getURIData : JSValue → Completion JSValue.

(** [get artists() { return this.data.map(x => new SimplifiedArtist(x)); }] *)
Definition artists (this : gmap string JSValue) : Completion JSValue :=
  map_method (prop this "data") SimplifiedArtist.

(** [getCodeImage] and [getURIData] have the same body in LinkedTrack and
    in Track. *)
Definition getCodeImage (this : gmap string JSValue) : Completion JSValue :=
  util_getCodeImage (prop this "uri").

Definition getURIData (this : gmap string JSValue) : Completion JSValue :=
  util_getURIData (prop this "uri").

End Accessors.

End Track.

(** ** Proof automation *)

(** Running a constructor body, or the factory, on symbolic data: the
    monad is unfolded, the maps are left as they are. *)
Ltac run_constructor :=
  cbv beta iota delta
    [Track.new Track.Track Track.LinkedTrack Track.define_data
     copy assign modify lift get has
     mbind M_bind mret M_ret Completion_bind Completion_ret].

Ltac read_field :=
  unfold prop;
  repeat (rewrite lookup_insert_ne by discriminate);
  first [ by rewrite lookup_insert_eq | by rewrite lookup_empty | done ].

(** The name pairs of a field table, one at a time. *)
Ltac each_field Hin :=
  repeat (apply elem_of_cons in Hin as [Hin|Hin];
          [injection Hin as -> -> |]);
  [.. | by apply elem_of_nil in Hin].

Ltac field_fact this :=
  match goal with
  | H : this !! ?f = _ |- context [this !! ?f] => rewrite H
  end.

Ltac run_factory :=
  cbv beta iota delta
    [Cache.createCacheStruct Cache.construct Cache.alloc Cache.store
     get_state modify lift get
     mbind M_bind mret M_ret Completion_bind Completion_ret].


(** * Properties *)

(** ** Boolean-array and boolean calls *)

Section FlagsFacts.

Variable fetch : string → option FetchOptions → Completion JSValue.

(** Whatever a call resolves to when the response is falsy. *)
Lemma all_false_flags (ids : list string) :
  all_false ids = JArr (JBool <$> replicate (length ids) false).
Proof.
  unfold all_false. f_equal.
  induction ids as [|id ids IH]; simpl; [done | by rewrite IH].
Qed.

(** [x || ids.map(() => false)] hands a truthy response on untouched. *)
Lemma followsArtists_truthy (ids : list string) (x : JSValue) :
  fetch "/me/following/contains"
    (Some {| method := None;
             params := Some {[ "type" := JStr "artist";
                               "ids" := JStr (join "," ids) ]} |}) = Return x →
  truthy x = true →
  UserClient.followsArtists fetch ids = Return x.
Proof.
  intros Hfetch Hx. unfold UserClient.followsArtists.
  rewrite Hfetch. simpl. by rewrite Hx.
Qed.

Lemma followsUsers_truthy (ids : list string) (x : JSValue) :
  fetch "/me/following/contains"
    (Some {| method := None;
             params := Some {[ "type" := JStr "user";
                               "ids" := JStr (join "," ids) ]} |}) = Return x →
  truthy x = true →
  UserClient.followsUsers fetch ids = Return x.
Proof.
  intros Hfetch Hx. unfold UserClient.followsUsers.
  rewrite Hfetch. simpl. by rewrite Hx.
Qed.

(** [hasAlbums] never looks at the response. *)
Lemma hasAlbums_all_false (ids : list string) (x : JSValue) :
  fetch "/me/albums/contains"
    (Some {| method := None;
             params := Some {[ "ids" := JStr (join "," ids) ]} |}) = Return x →
  UserClient.hasAlbums fetch ids = Return (all_false ids).
Proof. intros Hfetch. unfold UserClient.hasAlbums. by rewrite Hfetch. Qed.

Lemma saveAlbums_loosely_null (ids : list string) (x : JSValue) :
  fetch "/me/albums"
    (Some {| method := Some "PUT";
             params := Some {[ "ids" := JStr (join "," ids) ]} |}) = Return x →
  UserClient.saveAlbums fetch ids = Return (negb (loosely_null x)).
Proof. intros Hfetch. unfold UserClient.saveAlbums. by rewrite Hfetch. Qed.

Lemma removeAlbums_loosely_null (ids : list string) (x : JSValue) :
  fetch "/me/albums"
    (Some {| method := Some "DELETE";
             params := Some {[ "ids" := JStr (join "," ids) ]} |}) = Return x →
  UserClient.removeAlbums fetch ids = Return (negb (loosely_null x)).
Proof. intros Hfetch. unfold UserClient.removeAlbums. by rewrite Hfetch. Qed.

End FlagsFacts.

(** C1 (defect of the code).  The server reports that the album is in the
    library, [[true]]; [hasAlbums('id1')] answers [[false]]: the callback
    of [then] drops its argument. *)
Theorem hasAlbums_drops_reported_flag :
  UserClient.hasAlbums (λ _ _, Return (JArr [JBool true])) ["id1"]
  = Return (JArr [JBool false]).
Proof. reflexivity. Qed.

(** C2, the claim as stated fails: asked about three ids, with the server
    answering [[true]], [followsArtists] resolves to that one-element
    array, not to an array of three. *)
Lemma followsArtists_length_not_checked :
  UserClient.followsArtists (λ _ _, Return (JArr [JBool true]))
    ["id1"; "id2"; "id3"]
  = Return (JArr [JBool true])
  ∧ ¬ ∃ res : list bool,
        UserClient.followsArtists (λ _ _, Return (JArr [JBool true]))
          ["id1"; "id2"; "id3"]
        = Return (JArr (JBool <$> res))
        ∧ length res = length ["id1"; "id2"; "id3"].
Proof.
  split; [reflexivity|].
  intros (res & Hres & Hlen).
  change (Return (JArr [JBool true]) = Return (JArr (JBool <$> res))) in Hres.
  injection Hres as Hres. apply (f_equal length) in Hres.
  rewrite length_fmap in Hres. simpl in *. congruence.
Qed.

(** C2 (amended).  When the response is an array of membership flags,
    [followsArtists] and [followsUsers] resolve to exactly that array:
    the i-th element is the i-th flag the server reported and the length
    is the number of flags reported, which is the number of ids whenever
    the server reports one flag per id.  When the response is null they
    resolve to one [false] per id. *)
Theorem follows_flags_as_reported
    (fetch : string → option FetchOptions → Completion JSValue)
    (ids : list string) (flags : list bool) :
  (fetch "/me/following/contains"
     (Some {| method := None;
              params := Some {[ "type" := JStr "artist";
                                "ids" := JStr (join "," ids) ]} |})
     = Return (JArr (JBool <$> flags)) →
   ∃ res, UserClient.followsArtists fetch ids = Return (JArr (JBool <$> res))
          ∧ length res = length flags ∧ (∀ i, res !! i = flags !! i)
          ∧ (length flags = length ids → length res = length ids))
  ∧ (fetch "/me/following/contains"
       (Some {| method := None;
                params := Some {[ "type" := JStr "artist";
                                  "ids" := JStr (join "," ids) ]} |})
       = Return JNull →
     ∃ res, UserClient.followsArtists fetch ids = Return (JArr (JBool <$> res))
            ∧ length res = length ids ∧ ∀ i, i < length ids → res !! i = Some false)
  ∧ (fetch "/me/following/contains"
       (Some {| method := None;
                params := Some {[ "type" := JStr "user";
                                  "ids" := JStr (join "," ids) ]} |})
       = Return (JArr (JBool <$> flags)) →
     ∃ res, UserClient.followsUsers fetch ids = Return (JArr (JBool <$> res))
            ∧ length res = length flags ∧ (∀ i, res !! i = flags !! i)
            ∧ (length flags = length ids → length res = length ids))
  ∧ (fetch "/me/following/contains"
       (Some {| method := None;
                params := Some {[ "type" := JStr "user";
                                  "ids" := JStr (join "," ids) ]} |})
       = Return JNull →
     ∃ res, UserClient.followsUsers fetch ids = Return (JArr (JBool <$> res))
            ∧ length res = length ids ∧ ∀ i, i < length ids → res !! i = Some false).
Proof.
  split_and!.
  - intros Hfetch. exists flags. split; [|done].
    by apply followsArtists_truthy.
  - intros Hfetch. exists (replicate (length ids) false).
    unfold UserClient.followsArtists. rewrite Hfetch. simpl.
    rewrite all_false_flags, length_replicate. split; [done|]. split; [done|].
    intros i Hi. by apply lookup_replicate_2.
  - intros Hfetch. exists flags. split; [|done].
    by apply followsUsers_truthy.
  - intros Hfetch. exists (replicate (length ids) false).
    unfold UserClient.followsUsers. rewrite Hfetch. simpl.
    rewrite all_false_flags, length_replicate. split; [done|]. split; [done|].
    intros i Hi. by apply lookup_replicate_2.
Qed.

Lemma follows_flags_as_reported_witness :
  (∃ res, UserClient.followsArtists
            (λ _ _, Return (JArr [JBool true; JBool false])) ["id1"; "id2"]
          = Return (JArr (JBool <$> res))
          ∧ length res = 2 ∧ (∀ i, res !! i = [true; false] !! i)
          ∧ (2 = 2 → length res = 2))
  ∧ (∃ res, UserClient.followsUsers (λ _ _, Return JNull) ["id1"; "id2"]
            = Return (JArr (JBool <$> res))
            ∧ length res = 2 ∧ ∀ i, i < 2 → res !! i = Some false).
Proof.
  split.
  - destruct (follows_flags_as_reported
                (λ _ _, Return (JArr [JBool true; JBool false]))
                ["id1"; "id2"] [true; false]) as (Hartists & _).
    apply Hartists. reflexivity.
  - destruct (follows_flags_as_reported (λ _ _, Return JNull)
                ["id1"; "id2"] []) as (_ & _ & _ & Husers).
    apply Husers. reflexivity.
Defined.

(** C6, the claim as stated fails: when the response is undefined, which
    is not null, [saveAlbums] and [removeAlbums] resolve to [false] all
    the same. *)
Lemma saveAlbums_false_on_undefined :
  UserClient.saveAlbums (λ _ _, Return JUndefined) ["id1"] = Return false
  ∧ UserClient.removeAlbums (λ _ _, Return JUndefined) ["id1"] = Return false
  ∧ ¬ (∀ b, UserClient.saveAlbums (λ _ _, Return JUndefined) ["id1"] = Return b →
            (b = false ↔ JUndefined = JNull)).
Proof.
  split; [reflexivity|]. split; [reflexivity|].
  intros Hclaim. destruct (Hclaim false eq_refl) as [Hnull _].
  by specialize (Hnull eq_refl).
Qed.

(** C6 (amended).  [saveAlbums] and [removeAlbums] resolve to [false]
    exactly when the response is null or undefined (the test is the loose
    [x != null]), and to [true] for every other response. *)
Theorem saveAlbums_removeAlbums_nullish
    (fetch : string → option FetchOptions → Completion JSValue)
    (ids : list string) (x : JSValue) :
  (fetch "/me/albums"
     (Some {| method := Some "PUT";
              params := Some {[ "ids" := JStr (join "," ids) ]} |}) = Return x →
   ∃ b, UserClient.saveAlbums fetch ids = Return b
        ∧ (b = false ↔ x = JNull ∨ x = JUndefined)
        ∧ (x ≠ JNull → x ≠ JUndefined → b = true))
  ∧ (fetch "/me/albums"
       (Some {| method := Some "DELETE";
                params := Some {[ "ids" := JStr (join "," ids) ]} |}) = Return x →
     ∃ b, UserClient.removeAlbums fetch ids = Return b
          ∧ (b = false ↔ x = JNull ∨ x = JUndefined)
          ∧ (x ≠ JNull → x ≠ JUndefined → b = true)).
Proof.
  assert (negb (loosely_null x) = false ↔ x = JNull ∨ x = JUndefined) as Hiff.
  { destruct x; simpl;
      (split; [intros ?; first [done | by left | by right]
              | intros [?|?]; done]). }
  assert (x ≠ JNull → x ≠ JUndefined → negb (loosely_null x) = true) as Htrue.
  { by destruct x. }
  split; intros Hfetch; eexists; (split; [|by split]).
  - by apply saveAlbums_loosely_null.
  - by apply removeAlbums_loosely_null.
Qed.

Lemma saveAlbums_removeAlbums_nullish_witness :
  (∃ b, UserClient.saveAlbums (λ _ _, Return JNull) ["id1"; "id2"] = Return b
        ∧ (b = false ↔ JNull = JNull ∨ JNull = JUndefined)
        ∧ (JNull ≠ JNull → JNull ≠ JUndefined → b = true))
  ∧ (∃ b, UserClient.removeAlbums (λ _ _, Return (JObj ∅)) ["id1"] = Return b
          ∧ (b = false ↔ JObj ∅ = JNull ∨ JObj ∅ = JUndefined)
          ∧ (JObj ∅ ≠ JNull → JObj ∅ ≠ JUndefined → b = true)).
Proof.
  split.
  - destruct (saveAlbums_removeAlbums_nullish (λ _ _, Return JNull)
                ["id1"; "id2"] JNull) as [Hsave _].
    apply Hsave. reflexivity.
  - destruct (saveAlbums_removeAlbums_nullish (λ _ _, Return (JObj ∅))
                ["id1"] (JObj ∅)) as [_ Hremove].
    apply Hremove. reflexivity.
Defined.

(** ** patchInfo *)

Section ProfileFacts.

Variable fetch : string → option FetchOptions → Completion JSValue.

(** Binding a computation that is known to return. *)
Lemma M_bind_return {S A B} (m : M S A) (f : A → M S B) (σ σ' : S) (a : A) :
  m σ = (Return a, σ') → (m ≫= f) σ = f a σ'.
Proof. intros Hm. unfold mbind, M_bind. by rewrite Hm. Qed.

Lemma M_bind_throw {S A B} (m : M S A) (f : A → M S B) (σ σ' : S) (e : Error) :
  m σ = (Throw e, σ') → (m ≫= f) σ = (Throw e, σ').
Proof. intros Hm. unfold mbind, M_bind. by rewrite Hm. Qed.

(** A falsy response makes [patchInfo] throw the library's error and
    leaves [this] as it was. *)
Lemma patchInfo_falsy (this : gmap string JSValue) (data : JSValue) :
  fetch "/me" None = Return data → truthy data = false →
  UserClient.patchInfo fetch this
  = (Throw (SpotifyAPIError
       "Could not load private user data from the user authorized token."),
     this).
Proof.
  intros Hfetch Hdata. unfold UserClient.patchInfo.
  erewrite M_bind_return; [|unfold lift; by rewrite Hfetch].
  by rewrite Hdata.
Qed.


Lemma copy_only_TypeError f data k this :
  only_TypeError (copy f data k this).
Proof.
  intros e. unfold copy, assign, modify, lift, mbind, M_bind.
  destruct data; simpl; congruence.
Qed.

Lemma bind_only_TypeError {A B} (m : M (gmap string JSValue) A)
    (f : A → M (gmap string JSValue) B) this :
  only_TypeError (m this) → (∀ a this', only_TypeError (f a this')) →
  only_TypeError ((m ≫= f) this).
Proof.
  intros Hm Hf e. unfold mbind, M_bind.
  destruct (m this) as [[a|e'] this'] eqn:Heq.
  - apply Hf.
  - simpl. intros [= <-]. by apply (Hm e').
Qed.

Lemma lift_get_only_TypeError v k this :
  only_TypeError (lift (get v k) this).
Proof. intros e. unfold lift. destruct v; simpl; congruence. Qed.

Lemma patchInfo_truthy (this : gmap string JSValue) (data : JSValue) :
  fetch "/me" None = Return data → truthy data = true →
  only_TypeError (UserClient.patchInfo fetch this).
Proof.
  intros Hfetch Hdata. unfold UserClient.patchInfo.
  erewrite M_bind_return; [|unfold lift; by rewrite Hfetch].
  rewrite Hdata. simpl negb. cbv iota.
  repeat (apply bind_only_TypeError;
          [first [apply copy_only_TypeError | apply lift_get_only_TypeError]
          | intros ? ?]).
  apply bind_only_TypeError.
  - match goal with |- context [truthy ?v] => destruct (truthy v) end.
    + repeat (apply bind_only_TypeError;
              [apply lift_get_only_TypeError | intros ? ?]).
      intros e. unfold assign, modify. simpl. congruence.
    + intros e. simpl. congruence.
  - intros ? ? e. unfold get_state. simpl. congruence.
Qed.

End ProfileFacts.

(** C3.  When the fetch of '/me' resolves to null, [patchInfo] throws a
    SpotifyAPIError whose message is not empty; when it resolves to a
    payload (an object), [patchInfo] throws no SpotifyAPIError. *)
Theorem patchInfo_domain_error
    (fetch : string → option FetchOptions → Completion JSValue)
    (this : gmap string JSValue) :
  (fetch "/me" None = Return JNull →
   ∃ message, (UserClient.patchInfo fetch this).1
              = Throw (SpotifyAPIError message) ∧ message ≠ "")
  ∧ (∀ payload, fetch "/me" None = Return (JObj payload) →
     ∀ message, (UserClient.patchInfo fetch this).1
                ≠ Throw (SpotifyAPIError message)).
Proof.
  split.
  - intros Hfetch. eexists. rewrite (patchInfo_falsy _ _ _ Hfetch eq_refl).
    split; [reflexivity | discriminate].
  - intros payload Hfetch message Hthrow.
    by specialize (patchInfo_truthy _ this _ Hfetch eq_refl _ Hthrow).
Qed.

Lemma patchInfo_domain_error_witness :
  (∃ message, (UserClient.patchInfo (λ _ _, Return JNull)
                 UserClient.constructor).1
              = Throw (SpotifyAPIError message) ∧ message ≠ "")
  ∧ (∀ message,
       (UserClient.patchInfo
          (λ _ _, Return (JObj {[ "id" := JStr "u1";
                                  "followers" := JObj {[ "total" := JNum 7 ]} ]}))
          UserClient.constructor).1
       ≠ Throw (SpotifyAPIError message)).
Proof.
  split.
  - apply (patchInfo_domain_error (λ _ _, Return JNull)). reflexivity.
  - eapply (patchInfo_domain_error (λ _ _, Return (JObj _))). reflexivity.
Defined.

(** A profile with followers is patched onto [this]. *)
Example patchInfo_sample :
  match (UserClient.patchInfo
           (λ _ _, Return (JObj {[ "id" := JStr "u1";
                                   "display_name" := JStr "U";
                                   "followers" := JObj {[ "total" := JNum 7 ]} ]}))
           UserClient.constructor).1 with
  | Return this =>
      prop this "id" = JStr "u1"
      ∧ prop this "displayName" = JStr "U"
      ∧ prop this "totalFollowers" = JNum 7
      ∧ prop this "type" = JStr "user"
      ∧ this !! "explicitContent" = None
  | Throw _ => False
  end.
Proof. vm_compute. repeat split. Qed.

(** A payload without [followers] makes [data.followers.total] a TypeError. *)
Example patchInfo_no_followers :
  (UserClient.patchInfo (λ _ _, Return (JObj {[ "id" := JStr "u1" ]}))
     UserClient.constructor).1 = Throw TypeError.
Proof. reflexivity. Qed.

(** ** List calls on an empty response *)


(** ** Track and LinkedTrack constructors *)

(** What [new LinkedTrack(data)] holds, field by field. *)
Lemma LinkedTrack_object (o : gmap string JSValue) :
  ∃ this, Track.new Track.LinkedTrack (JObj o) = Return this
    ∧ this !! "data" = Some (JObj o)
    ∧ this !! "externalUrls" = Some (prop o "external_urls")
    ∧ this !! "href" = Some (prop o "href")
    ∧ this !! "id" = Some (prop o "id")
    ∧ this !! "type" = Some (prop o "type")
    ∧ this !! "uri" = Some (prop o "uri").
Proof.
  run_constructor. eexists. split; [reflexivity|].
  repeat split; read_field.
Qed.

(** What [new Track(data)] holds, field by field: sixteen copies, the
    coerced [local], and [linkedFrom] when the key is there. *)
Lemma Track_object (o : gmap string JSValue) :
  ∃ this, Track.new Track.Track (JObj o) = Return this
    ∧ this !! "data" = Some (JObj o)
    ∧ this !! "availableMarkets" = Some (prop o "available_markets")
    ∧ this !! "discNumber" = Some (prop o "disc_number")
    ∧ this !! "duration" = Some (prop o "duration_ms")
    ∧ this !! "explicit" = Some (prop o "explicit")
    ∧ this !! "externalIds" = Some (prop o "external_ids")
    ∧ this !! "externalUrls" = Some (prop o "external_urls")
    ∧ this !! "href" = Some (prop o "href")
    ∧ this !! "id" = Some (prop o "id")
    ∧ this !! "name" = Some (prop o "name")
    ∧ this !! "popularity" = Some (prop o "popularity")
    ∧ this !! "previewUrl" = Some (prop o "preview_url")
    ∧ this !! "trackNumber" = Some (prop o "track_number")
    ∧ this !! "type" = Some (prop o "type")
    ∧ this !! "uri" = Some (prop o "uri")
    ∧ this !! "playable" = Some (prop o "is_playable")
    ∧ this !! "restrictions" = Some (prop o "restrictions")
    ∧ this !! "local" = Some (JBool (truthy (prop o "is_local")))
    ∧ this !! "linkedFrom" = o !! "linked_from".
Proof.
  run_constructor.
  destruct (o !! "linked_from") as [v|] eqn:Hlinked.
  - rewrite bool_decide_eq_true_2 by eauto.
    eexists. split; [reflexivity|].
    repeat split; try read_field.
    unfold prop. rewrite Hlinked. by rewrite lookup_insert_eq.
  - rewrite bool_decide_eq_false_2 by (intros [? ?]; discriminate).
    eexists. split; [reflexivity|].
    repeat split; read_field.
Qed.

(** C7, the claim as stated fails: from the raw object [{ is_local: 1 }]
    the exposed field [local] of the track is [true], not the [1] of its
    input key. *)
Lemma Track_local_not_preserved :
  ∃ this, Track.new Track.Track (JObj {[ "is_local" := JNum 1 ]}) = Return this
    ∧ ¬ (∀ k f, (k, f) ∈ Track.Track_fields →
           prop this f = prop {[ "is_local" := JNum 1 ]} k).
Proof.
  eexists. split; [reflexivity|].
  intros Hall. specialize (Hall "is_local" "local").
  assert (("is_local", "local") ∈ Track.Track_fields) as Hin
    by (apply (bool_decide_unpack _); by vm_compute).
  apply Hall in Hin. vm_compute in Hin. discriminate.
Qed.

(** C7 (amended).  From every raw object, each exposed field of a
    LinkedTrack, and each exposed field of a Track other than [local],
    equals the value of its input key (undefined when the key is absent);
    [local] is [Boolean(is_local)], hence equal to [is_local] whenever
    that is a boolean; and no input key and no exposed field occurs twice
    in the mapping, which is thus a bijection. *)
Theorem constructors_preserve_mapped_fields (o : gmap string JSValue) :
  (∃ this, Track.new Track.LinkedTrack (JObj o) = Return this
     ∧ ∀ k f, (k, f) ∈ Track.LinkedTrack_fields → prop this f = prop o k)
  ∧ (∃ this, Track.new Track.Track (JObj o) = Return this
       ∧ (∀ k f, (k, f) ∈ Track.Track_fields → f ≠ "local" →
            prop this f = prop o k)
       ∧ prop this "local" = JBool (truthy (prop o "is_local"))
       ∧ (∀ b, prop o "is_local" = JBool b →
            prop this "local" = prop o "is_local"))
  ∧ NoDup Track.LinkedTrack_fields.*1 ∧ NoDup Track.LinkedTrack_fields.*2
  ∧ NoDup Track.Track_fields.*1 ∧ NoDup Track.Track_fields.*2.
Proof.
  split; [|split].
  - destruct (LinkedTrack_object o)
      as (this & Hnew & Hdata & Hurls & Hhref & Hid & Htype & Huri).
    exists this. split; [done|]. intros k f Hin.
    each_field Hin; unfold prop at 1; by field_fact this.
  - destruct (Track_object o)
      as (this & Hnew & Hdata & Hmarkets & Hdisc & Hduration & Hexplicit
          & Hids & Hurls & Hhref & Hid & Hname & Hpopularity & Hpreview
          & Hnumber & Htype & Huri & Hplayable & Hrestrictions & Hlocal
          & Hlinked).
    exists this. split; [done|]. repeat split.
    + intros k f Hin Hf.
      each_field Hin; try done; unfold prop at 1; by field_fact this.
    + unfold prop at 1. by rewrite Hlocal.
    + intros b Hb. unfold prop at 1. by rewrite Hlocal, Hb.
  - repeat split; apply (bool_decide_unpack _); by vm_compute.
Qed.

Lemma constructors_preserve_mapped_fields_witness :
  ∃ this, Track.new Track.Track
            (JObj {[ "id" := JStr "t1"; "duration_ms" := JNum 1000 ]})
          = Return this
    ∧ prop this "duration" = JNum 1000.
Proof.
  destruct (constructors_preserve_mapped_fields
              {[ "id" := JStr "t1"; "duration_ms" := JNum 1000 ]})
    as (_ & (this & Hnew & Hfields & _) & _).
  exists this. split; [exact Hnew|].
  apply (Hfields "duration_ms" "duration");
    [apply (bool_decide_unpack _); by vm_compute | discriminate].
Defined.

(** C8, the claim as stated fails: the empty raw object has no [is_local]
    and yet the exposed field [local] of its track is [false], neither
    null nor undefined. *)
Lemma Track_absent_local_is_false :
  ∃ this, Track.new Track.Track (JObj ∅) = Return this
    ∧ ¬ (∀ k f, (k, f) ∈ Track.Track_fields →
           (∅ : gmap string JSValue) !! k = None →
           prop this f = JNull ∨ prop this f = JUndefined).
Proof.
  eexists. split; [reflexivity|].
  intros Hall. specialize (Hall "is_local" "local").
  assert (("is_local", "local") ∈ Track.Track_fields) as Hin
    by (apply (bool_decide_unpack _); by vm_compute).
  apply Hall in Hin; [|done]. vm_compute in Hin.
  by destruct Hin.
Qed.

(** [patchInfo] assigns nine fields and [type] is none of them. *)
Lemma bind_keeps {A B} k (m : M (gmap string JSValue) A)
    (f : A → M (gmap string JSValue) B) :
  keeps k m → (∀ a, keeps k (f a)) → keeps k (m ≫= f).
Proof.
  intros Hm Hf this. unfold mbind, M_bind.
  specialize (Hm this). destruct (m this) as [[a|e] this']; simpl in *.
  - by rewrite Hf.
  - done.
Qed.

Lemma lift_keeps {A} k (c : Completion A) : keeps k (lift c).
Proof. by intros this. Qed.

Lemma assign_keeps k f v : f ≠ k → keeps k (assign f v).
Proof. intros Hf this. simpl. by rewrite lookup_insert_ne. Qed.

Lemma copy_keeps k f data k' : f ≠ k → keeps k (copy f data k').
Proof.
  intros Hf. apply bind_keeps; [apply lift_keeps|].
  intros v. by apply assign_keeps.
Qed.

Lemma patchInfo_keeps_type
    (fetch : string → option FetchOptions → Completion JSValue) :
  keeps "type" (UserClient.patchInfo fetch).
Proof.
  unfold UserClient.patchInfo.
  apply bind_keeps; [apply lift_keeps|]. intros data.
  destruct (truthy data); simpl negb; cbv iota; [|apply lift_keeps].
  repeat (apply bind_keeps;
          [first [by apply copy_keeps | apply lift_keeps] | intros ?]).
  apply bind_keeps.
  - match goal with |- context [truthy ?v] => destruct (truthy v) end.
    + repeat (apply bind_keeps; [apply lift_keeps | intros ?]).
      by apply assign_keeps.
    + by intros this.
  - intros _. by intros this.
Qed.

(** C8 (amended).  From every raw object given to the LinkedTrack or the
    Track constructor, a mapped key that is present, [is_local] apart, is
    copied verbatim to its exposed field, and the exposed field of an
    absent key reads undefined ([linkedFrom] is then not set at all);
    [local] is [Boolean(is_local)], so [false] when the key is absent.
    The one exposed field with an initialiser, UserClient's [type], is
    'user' from construction on, whatever [patchInfo] fetches. *)
Theorem constructors_copy_present_fields (o : gmap string JSValue) :
  (∃ this, Track.new Track.LinkedTrack (JObj o) = Return this
     ∧ ∀ k f, (k, f) ∈ Track.LinkedTrack_fields →
         (∀ v, o !! k = Some v → this !! f = Some v)
         ∧ (o !! k = None → prop this f = JUndefined))
  ∧ (∃ this, Track.new Track.Track (JObj o) = Return this
       ∧ (∀ k f, (k, f) ∈ Track.Track_fields → f ≠ "local" →
            (∀ v, o !! k = Some v → this !! f = Some v)
            ∧ (o !! k = None → prop this f = JUndefined))
       ∧ (∀ v, o !! "is_local" = Some v →
            this !! "local" = Some (JBool (truthy v)))
       ∧ (o !! "is_local" = None → this !! "local" = Some (JBool false))
       ∧ (o !! "linked_from" = None → this !! "linkedFrom" = None))
  ∧ (UserClient.constructor !! "type" = Some (JStr "user")
     ∧ ∀ fetch, (UserClient.patchInfo fetch UserClient.constructor).2 !! "type"
                = Some (JStr "user")).
Proof.
  split; [|split].
  - destruct (LinkedTrack_object o)
      as (this & Hnew & Hdata & Hurls & Hhref & Hid & Htype & Huri).
    exists this. split; [done|]. intros k f Hin.
    each_field Hin; (split; [intros v Hv | intros Hv]);
      unfold prop in *; field_fact this; by rewrite Hv.
  - destruct (Track_object o)
      as (this & Hnew & Hdata & Hmarkets & Hdisc & Hduration & Hexplicit
          & Hids & Hurls & Hhref & Hid & Hname & Hpopularity & Hpreview
          & Hnumber & Htype & Huri & Hplayable & Hrestrictions & Hlocal
          & Hlinked).
    exists this. split; [done|]. split; [|split; [|split]].
    + intros k f Hin Hf.
      each_field Hin; try done; (split; [intros v Hv | intros Hv]);
        unfold prop in *; field_fact this; by rewrite Hv.
    + intros v Hv. rewrite Hlocal. unfold prop. by rewrite Hv.
    + intros Hv. rewrite Hlocal. unfold prop. by rewrite Hv.
    + intros Hv. by rewrite Hlinked.
  - split; [done|]. intros fetch. by rewrite patchInfo_keeps_type.
Qed.

Lemma constructors_copy_present_fields_witness :
  ∃ this, Track.new Track.Track
            (JObj {[ "id" := JStr "t1"; "is_local" := JBool true ]})
          = Return this
    ∧ this !! "id" = Some (JStr "t1")
    ∧ prop this "href" = JUndefined
    ∧ this !! "local" = Some (JBool true)
    ∧ this !! "linkedFrom" = None.
Proof.
  destruct (constructors_copy_present_fields
              {[ "id" := JStr "t1"; "is_local" := JBool true ]})
    as (_ & (this & Hnew & Hfields & Hlocal & _ & Hlinked) & _).
  exists this. split; [exact Hnew|]. repeat split.
  - apply (Hfields "id" "id");
      [apply (bool_decide_unpack _); by vm_compute | discriminate
      | reflexivity].
  - apply (Hfields "href" "href");
      [apply (bool_decide_unpack _); by vm_compute | discriminate
      | reflexivity].
  - apply (Hlocal (JBool true)). reflexivity.
  - apply Hlinked. reflexivity.
Defined.

(** ** The album accessor *)

(** The accessor re-enters itself before it does anything else: whatever
    room the stack has, it ends in a RangeError. *)
Lemma album_overflows (SimplifiedAlbum : JSValue → Completion JSValue)
    (stack : nat) (this : gmap string JSValue) :
  Track.album SimplifiedAlbum stack this = Throw RangeError.
Proof.
  induction stack as [|frames IH]; simpl; [done|]. by rewrite IH.
Qed.

(** C10 (defect of the code).  On the track built from a raw object with
    an [album], and with a SimplifiedAlbum constructor that always
    succeeds, the accessor returns no album for any stack size: it raises
    a RangeError, and the constructor is never reached. *)
Theorem album_never_returns (stack : nat) :
  ∃ this,
    Track.new Track.Track
      (JObj {[ "id" := JStr "t1";
               "album" := JObj {[ "id" := JStr "al1" ]} ]}) = Return this
    ∧ Track.album (λ data, Return data) stack this = Throw RangeError.
Proof.
  eexists. split; [reflexivity|]. apply album_overflows.
Qed.

(** ** The cache-aware factory *)

Lemma raw_id_object (raw : JSValue) (k : string) :
  Cache.raw_id raw = Some k → ∃ o, raw = JObj o ∧ prop o "id" = JStr k.
Proof.
  destruct raw as [| | | | |l|o]; simpl; try done.
  destruct (prop o "id") eqn:Hid; try done.
  intros [= ->]. by exists o.
Qed.

(** A hit: the cached instance is returned, nothing is built or stored. *)
Lemma createCacheStruct_hit (tag : string) (raw : JSValue) (k : string)
    (σ : Cache.State) (r : nat) :
  Cache.raw_id raw = Some k → Cache.entries σ !! (tag, k) = Some r →
  Cache.createCacheStruct tag raw σ = (Return r, σ).
Proof.
  intros (o & -> & Hid)%raw_id_object Hentry.
  run_factory. by rewrite Hid, Hentry.
Qed.

(** A miss: a new instance is built, allocated, stored under the ID and
    returned. *)
Lemma createCacheStruct_miss (tag : string) (raw : JSValue) (k : string)
    (σ : Cache.State) :
  Cache.raw_id raw = Some k → Cache.entries σ !! (tag, k) = None →
  Cache.createCacheStruct tag raw σ
  = (Return (length (Cache.heap σ)),
     {| Cache.heap := Cache.heap σ
                      ++ [{| Cache.struct_type := tag;
                             Cache.struct_id := JStr k;
                             Cache.struct_data := raw |}];
        Cache.entries := <[(tag, k) := length (Cache.heap σ)]>
                           (Cache.entries σ) |}).
Proof.
  intros (o & -> & Hid)%raw_id_object Hentry.
  run_factory. by rewrite Hid, Hentry.
Qed.

Lemma wf_empty : Cache.wf Cache.empty.
Proof. split; intros *; simpl; by rewrite lookup_empty. Qed.

Lemma wf_allocated (σ : Cache.State) (key : string * string) (r : nat) :
  Cache.wf σ → Cache.entries σ !! key = Some r → r < length (Cache.heap σ).
Proof.
  intros [Hheap _] Hentry. destruct key as [tag k].
  destruct (Hheap _ _ _ Hentry) as (s & Hs & _).
  by eapply lookup_lt_Some.
Qed.

(** Storing a fresh instance under a free ID keeps the cache well formed. *)
Lemma wf_miss (tag k : string) (raw : JSValue) (σ : Cache.State) :
  Cache.wf σ → Cache.entries σ !! (tag, k) = None →
  Cache.wf
    {| Cache.heap := Cache.heap σ
                     ++ [{| Cache.struct_type := tag;
                            Cache.struct_id := JStr k;
                            Cache.struct_data := raw |}];
       Cache.entries := <[(tag, k) := length (Cache.heap σ)]>
                          (Cache.entries σ) |}.
Proof.
  intros Hwf Hfree. pose proof Hwf as [Hheap Hinj]. split; simpl.
  - intros tag' k' r. rewrite lookup_insert. case_decide as Hkey.
    + intros [= <-]. simplify_eq.
      eexists.
      split; [rewrite lookup_app_r by done; by rewrite Nat.sub_diag | done].
    + intros Hentry. destruct (Hheap _ _ _ Hentry) as (s & Hs & Htag & Hid).
      exists s. split; [|done]. by apply lookup_app_l_Some.
  - intros key1 key2 r. rewrite !lookup_insert.
    repeat case_decide; simplify_eq; try done.
    + intros [= <-] Hentry. apply (wf_allocated _ _ _ Hwf) in Hentry. lia.
    + intros Hentry [= <-]. apply (wf_allocated _ _ _ Hwf) in Hentry. lia.
    + apply Hinj.
Qed.

(** The factory on an item with an ID, in a well-formed cache: it returns
    an instance of that type and ID, now cached under the ID; the cache
    stays well formed and no allocated instance moves. *)
Lemma createCacheStruct_spec (tag : string) (raw : JSValue) (k : string)
    (σ : Cache.State) :
  Cache.wf σ → Cache.raw_id raw = Some k →
  ∃ r σ', Cache.createCacheStruct tag raw σ = (Return r, σ')
    ∧ Cache.wf σ'
    ∧ Cache.entries σ' !! (tag, k) = Some r
    ∧ (∃ s, Cache.heap σ' !! r = Some s ∧ Cache.struct_id s = JStr k)
    ∧ (∀ r0 s, Cache.heap σ !! r0 = Some s → Cache.heap σ' !! r0 = Some s).
Proof.
  intros Hwf Hraw. destruct (Cache.entries σ !! (tag, k)) as [r|] eqn:Hentry.
  - exists r, σ. rewrite (createCacheStruct_hit _ _ _ _ _ Hraw Hentry).
    do 3 (split; [done|]). split; [|done].
    destruct Hwf as [Hheap _].
    destruct (Hheap _ _ _ Hentry) as (s & Hs & _ & Hid). by exists s.
  - eexists _, _. rewrite (createCacheStruct_miss _ _ _ _ Hraw Hentry).
    split; [reflexivity|]. split; [by apply wf_miss|]. simpl.
    split; [by rewrite lookup_insert_eq|]. split.
    + eexists. rewrite lookup_app_r by done. by rewrite Nat.sub_diag.
    + intros r0 s Hs. by apply lookup_app_l_Some.
Qed.

(** Allocating without storing keeps the cache well formed. *)
Lemma wf_alloc (s : Cache.Struct) (σ : Cache.State) :
  Cache.wf σ →
  Cache.wf {| Cache.heap := Cache.heap σ ++ [s];
              Cache.entries := Cache.entries σ |}.
Proof.
  intros [Hheap Hinj]. split; simpl; [|done].
  intros tag k r Hentry. destruct (Hheap _ _ _ Hentry) as (s' & Hs & Hrest).
  exists s'. split; [|done]. by apply lookup_app_l_Some.
Qed.

(** Whatever the item, a call of the factory keeps the cache well formed
    and every entry it has. *)
Lemma createCacheStruct_preserves (tag : string) (raw : JSValue)
    (σ : Cache.State) :
  Cache.wf σ →
  Cache.wf (Cache.createCacheStruct tag raw σ).2
  ∧ ∀ key r, Cache.entries σ !! key = Some r →
      Cache.entries (Cache.createCacheStruct tag raw σ).2 !! key = Some r.
Proof.
  intros Hwf.
  destruct raw as [| | | | | |o];
    try (run_factory; simpl; split; [by try apply wf_alloc | done]).
  destruct (prop o "id") as [| | | |k| |] eqn:Hid;
    try (run_factory; rewrite Hid; simpl;
         split; [by try apply wf_alloc | done]).
  assert (Cache.raw_id (JObj o) = Some k) as Hraw by (simpl; by rewrite Hid).
  destruct (Cache.entries σ !! (tag, k)) as [r|] eqn:Hentry.
  - by rewrite (createCacheStruct_hit _ _ _ _ _ Hraw Hentry).
  - rewrite (createCacheStruct_miss _ _ _ _ Hraw Hentry). simpl.
    split; [by apply wf_miss|].
    intros key r Hkey. rewrite lookup_insert_ne; [done|]. congruence.
Qed.

Lemma later_preserves (σ σ' : Cache.State) :
  Cache.later σ σ' → Cache.wf σ →
  Cache.wf σ'
  ∧ ∀ key r, Cache.entries σ !! key = Some r →
      Cache.entries σ' !! key = Some r.
Proof.
  induction 1 as [σ|σ tag raw σ' Hlater IH]; intros Hwf; [done|].
  destruct (createCacheStruct_preserves tag raw σ Hwf) as [Hwf' Hkeep].
  destruct (IH Hwf') as [Hwf'' Hkeep']. split; [done|].
  intros key r Hkey. by apply Hkeep', Hkeep.
Qed.

(** C9.  In a well-formed cache context (the empty cache is one, and the
    factory keeps it so), creating an entity returns the instance cached
    under its ID if there is one, and otherwise constructs a new
    instance, stores it under the ID and returns it; a later call in the
    same context returns the very same reference for the same ID and a
    different reference for a different ID. *)
Theorem createCacheStruct_identity (tag : string) (raw1 raw2 : JSValue)
    (k1 k2 : string) (σ : Cache.State) :
  Cache.wf σ → Cache.raw_id raw1 = Some k1 → Cache.raw_id raw2 = Some k2 →
  ∃ (r1 : nat) σ1,
    Cache.createCacheStruct tag raw1 σ = (Return r1, σ1)
    ∧ (∀ r, Cache.entries σ !! (tag, k1) = Some r → r1 = r ∧ σ1 = σ)
    ∧ (Cache.entries σ !! (tag, k1) = None →
         r1 = length (Cache.heap σ)
         ∧ Cache.heap σ1 = (Cache.heap σ
                            ++ [{| Cache.struct_type := tag;
                                   Cache.struct_id := JStr k1;
                                   Cache.struct_data := raw1 |}])%list
         ∧ Cache.entries σ1 = <[(tag, k1) := r1]> (Cache.entries σ))
    ∧ ∀ σ1', Cache.later σ1 σ1' →
        ∃ r2 σ2,
          Cache.createCacheStruct tag raw2 σ1' = (Return r2, σ2)
          ∧ (k1 = k2 → r1 = r2)
          ∧ (k1 ≠ k2 → r1 ≠ r2).
Proof.
  intros Hwf Hraw1 Hraw2.
  destruct (createCacheStruct_spec tag raw1 k1 σ Hwf Hraw1)
    as (r1 & σ1 & Hcall1 & Hwf1 & Hentry1 & _ & _).
  exists r1, σ1. split; [done|]. split; [|split].
  - intros r Hentry.
    rewrite (createCacheStruct_hit _ _ _ _ _ Hraw1 Hentry) in Hcall1.
    by simplify_eq.
  - intros Hentry.
    rewrite (createCacheStruct_miss _ _ _ _ Hraw1 Hentry) in Hcall1.
    by simplify_eq.
  - intros σ1' Hlater.
    destruct (later_preserves _ _ Hlater Hwf1) as [Hwf1' Hkeep].
    destruct (createCacheStruct_spec tag raw2 k2 σ1' Hwf1' Hraw2)
      as (r2 & σ2 & Hcall2 & Hwf2 & Hentry2 & _ & _).
    exists r2, σ2. split; [done|].
    assert (Cache.entries σ2 !! (tag, k1) = Some r1) as Hentry1'.
    { destruct (createCacheStruct_preserves tag raw2 σ1' Hwf1') as [_ Hkeep2].
      rewrite Hcall2 in Hkeep2. by apply Hkeep2, Hkeep. }
    split.
    + intros <-. congruence.
    + intros Hk <-. destruct Hwf2 as [_ Hinj].
      specialize (Hinj _ _ _ Hentry1' Hentry2). congruence.
Qed.

Lemma createCacheStruct_identity_witness :
  ∃ r1 σ1,
    Cache.createCacheStruct "playlists" (JObj {[ "id" := JStr "a1" ]})
      Cache.empty = (Return r1, σ1)
    ∧ (∃ r2 σ2,
         Cache.createCacheStruct "playlists"
           (JObj {[ "id" := JStr "a1"; "name" := JStr "again" ]}) σ1
         = (Return r2, σ2) ∧ r1 = r2)
    ∧ (∃ r2 σ2,
         Cache.createCacheStruct "playlists" (JObj {[ "id" := JStr "a2" ]}) σ1
         = (Return r2, σ2) ∧ r1 ≠ r2).
Proof.
  assert (Cache.raw_id (JObj {[ "id" := JStr "a1" ]}) = Some "a1")
    as Hfirst by reflexivity.
  assert (Cache.raw_id (JObj {[ "id" := JStr "a1"; "name" := JStr "again" ]})
          = Some "a1") as Hagain by reflexivity.
  assert (Cache.raw_id (JObj {[ "id" := JStr "a2" ]}) = Some "a2")
    as Hsecond by reflexivity.
  destruct (createCacheStruct_identity "playlists" _ _ _ _
              Cache.empty wf_empty Hfirst Hagain)
    as (r1 & σ1 & Hcall & _ & _ & Hsame).
  destruct (createCacheStruct_identity "playlists" _ _ _ _
              Cache.empty wf_empty Hfirst Hsecond)
    as (r1' & σ1' & Hcall' & _ & _ & Hother).
  rewrite Hcall in Hcall'. injection Hcall' as <- <-.
  exists r1, σ1. split; [exact Hcall|]. split.
  - destruct (Hsame σ1 (Cache.later_now σ1)) as (r2 & σ2 & Hcall2 & Heq & _).
    exists r2, σ2. split; [exact Hcall2 | by apply Heq].
  - destruct (Hother σ1 (Cache.later_now σ1)) as (r2 & σ2 & Hcall2 & _ & Hne).
    exists r2, σ2. split; [exact Hcall2 | by apply Hne].
Defined.

(** The two calls, run: the second [a1] is the first one's object. *)
Example createCacheStruct_sample :
  (mapM (Cache.createCacheStruct "playlists")
     [ JObj {[ "id" := JStr "a1" ]}; JObj {[ "id" := JStr "a2" ]};
       JObj {[ "id" := JStr "a1" ]} ] Cache.empty).1
  = Return [0; 1; 0].
Proof. reflexivity. Qed.

(** ** getPlaylists through the factory *)

(** C4.  When the fetch of '/me/playlists' resolves to an object whose
    [items] is [[{id:'a1'}, {id:'a2'}]], [getPlaylists], run with the
    cache-aware factory in a well-formed cache context, resolves to
    exactly two structures, whose ids are 'a1' and 'a2' in that order. *)
Theorem getPlaylists_two_items
    (fetch : string → option FetchOptions → Completion JSValue)
    (options : option (gmap string JSValue))
    (payload : gmap string JSValue) (σ : Cache.State) :
  Cache.wf σ →
  payload !! "items"
  = Some (JArr [ JObj {[ "id" := JStr "a1" ]}; JObj {[ "id" := JStr "a2" ]} ]) →
  fetch "/me/playlists"
    (Some {| method := None; params := Some (default ∅ options) |})
  = Return (JObj payload) →
  ∃ r1 r2 σ',
    UserClient.getPlaylists fetch Cache.createCacheStructArray options σ
    = (Return [r1; r2], σ')
    ∧ Cache.struct_id <$> Cache.heap σ' !! r1 = Some (JStr "a1")
    ∧ Cache.struct_id <$> Cache.heap σ' !! r2 = Some (JStr "a2").
Proof.
  intros Hwf Hitems Hfetch.
  assert (Cache.raw_id (JObj {[ "id" := JStr "a1" ]}) = Some "a1")
    as Hfirst by reflexivity.
  assert (Cache.raw_id (JObj {[ "id" := JStr "a2" ]}) = Some "a2")
    as Hsecond by reflexivity.
  destruct (createCacheStruct_spec "playlists" _ _ σ Hwf Hfirst)
    as (r1 & σ1 & Hcall1 & Hwf1 & _ & (s1 & Hs1 & Hid1) & _).
  destruct (createCacheStruct_spec "playlists" _ _ σ1 Hwf1 Hsecond)
    as (r2 & σ2 & Hcall2 & _ & _ & (s2 & Hs2 & Hid2) & Hstay).
  exists r1, r2, σ2. split; [|split].
  - unfold UserClient.getPlaylists. cbv zeta.
    erewrite M_bind_return; [|unfold lift; by rewrite Hfetch].
    cbv beta. cbn [truthy].
    erewrite M_bind_return;
      [|unfold lift, get, prop; rewrite Hitems; simpl; reflexivity].
    cbv beta iota delta [Cache.createCacheStructArray]. cbn [mapM].
    erewrite M_bind_return; [|exact Hcall1]. cbv beta.
    erewrite M_bind_return; [reflexivity|].
    erewrite M_bind_return; [reflexivity | exact Hcall2].
  - rewrite (Hstay _ _ Hs1). simpl. by rewrite Hid1.
  - rewrite Hs2. simpl. by rewrite Hid2.
Qed.

Lemma getPlaylists_two_items_witness :
  ∃ r1 r2 σ',
    UserClient.getPlaylists
      (λ _ _, Return (JObj {[ "items" :=
                 JArr [ JObj {[ "id" := JStr "a1" ]};
                        JObj {[ "id" := JStr "a2" ]} ] ]}))
      Cache.createCacheStructArray None Cache.empty
    = (Return [r1; r2], σ')
    ∧ Cache.struct_id <$> Cache.heap σ' !! r1 = Some (JStr "a1")
    ∧ Cache.struct_id <$> Cache.heap σ' !! r2 = Some (JStr "a2").
Proof.
  apply (getPlaylists_two_items _ None
           {[ "items" := JArr [ JObj {[ "id" := JStr "a1" ]};
                                JObj {[ "id" := JStr "a2" ]} ] ]}
           Cache.empty wf_empty);
    reflexivity.
Defined.


(** * Further properties of the code *)

(** ** Rejections of the transport *)

(** X1.  When the transport rejects with an error, every call of the
    manager that fetches rejects with that very error, and neither
    [this] nor the cache has changed. *)
Theorem fetch_rejection_propagates {Cache Struct SavedStruct : Type}
    (fetch : string → option FetchOptions → Completion JSValue)
    (createCacheStructArray : string → JSValue → M Cache (list Struct))
    (createCacheSavedStructArray : string → JSValue → M Cache (list SavedStruct))
    (e : Error) (ids : list string) (options : option (gmap string JSValue))
    (this : gmap string JSValue) (cache : Cache) :
  (∀ path o, fetch path o = Throw e) →
  UserClient.patchInfo fetch this = (Throw e, this)
  ∧ UserClient.followsArtists fetch ids = Throw e
  ∧ UserClient.followsUsers fetch ids = Throw e
  ∧ UserClient.saveAlbums fetch ids = Throw e
  ∧ UserClient.removeAlbums fetch ids = Throw e
  ∧ UserClient.hasAlbums fetch ids = Throw e
  ∧ UserClient.getPlaylists fetch createCacheStructArray options cache
    = (Throw e, cache)
  ∧ UserClient.getFollowingArtists fetch createCacheStructArray options cache
    = (Throw e, cache)
  ∧ UserClient.getTopTracks fetch createCacheStructArray options cache
    = (Throw e, cache)
  ∧ UserClient.getTopArtists fetch createCacheStructArray options cache
    = (Throw e, cache)
  ∧ UserClient.getSavedAlbums fetch createCacheSavedStructArray options cache
    = (Throw e, cache).
Proof.
  intros Hfetch.
  unfold UserClient.patchInfo, UserClient.followsArtists,
    UserClient.followsUsers, UserClient.saveAlbums, UserClient.removeAlbums,
    UserClient.hasAlbums, UserClient.getPlaylists,
    UserClient.getFollowingArtists, UserClient.getTopTracks,
    UserClient.getTopArtists, UserClient.getSavedAlbums.
  cbv zeta.
  repeat split;
    first [ by rewrite Hfetch
          | erewrite M_bind_throw; [reflexivity | unfold lift; by rewrite Hfetch] ].
Qed.

Lemma fetch_rejection_propagates_witness :
  UserClient.patchInfo (λ _ _, Throw (Rejected "timeout")) UserClient.constructor
  = (Throw (Rejected "timeout"), UserClient.constructor)
  ∧ UserClient.hasAlbums (λ _ _, Throw (Rejected "timeout")) ["id1"]
    = Throw (Rejected "timeout").
Proof.
  destruct (fetch_rejection_propagates (λ _ _, Throw (Rejected "timeout"))
              Cache.createCacheStructArray Cache.createCacheStructArray
              (Rejected "timeout") ["id1"] None UserClient.constructor
              Cache.empty (λ _ _, eq_refl))
    as (Hpatch & _ & _ & _ & _ & Hhas & _).
  split; [exact Hpatch | exact Hhas].
Defined.

(** ** patchInfo *)

(** X2.  Not only null: every falsy response (undefined, [false], [0],
    the empty string) makes [patchInfo] throw the SpotifyAPIError, and
    [this] is left exactly as it was. *)
Theorem patchInfo_falsy_response
    (fetch : string → option FetchOptions → Completion JSValue)
    (this : gmap string JSValue) (data : JSValue) :
  fetch "/me" None = Return data →
  data = JNull ∨ data = JUndefined ∨ data = JBool false ∨ data = JNum 0
  ∨ data = JStr "" →
  UserClient.patchInfo fetch this
  = (Throw (SpotifyAPIError
       "Could not load private user data from the user authorized token."),
     this).
Proof.
  intros Hfetch Hdata. apply (patchInfo_falsy _ _ data Hfetch).
  by destruct Hdata as [->|[->|[->|[->| ->]]]].
Qed.

Lemma patchInfo_falsy_response_witness :
  UserClient.patchInfo (λ _ _, Return (JNum 0)) {[ "id" := JStr "old" ]}
  = (Throw (SpotifyAPIError
       "Could not load private user data from the user authorized token."),
     {[ "id" := JStr "old" ]}).
Proof.
  apply (patchInfo_falsy_response (λ _ _, Return (JNum 0)) _ (JNum 0));
    [reflexivity | by right; right; right; left].
Defined.

(** X3.  [patchInfo] assigns to ten properties of [this] and to nothing
    else: whatever is fetched and however the call ends, every other
    property of [this] is as before. *)
Theorem patchInfo_frame
    (fetch : string → option FetchOptions → Completion JSValue)
    (this : gmap string JSValue) (k : string) :
  k ∉ [ "displayName"; "id"; "uri"; "images"; "totalFollowers";
        "externalURL"; "email"; "product"; "country"; "explicitContent" ] →
  (UserClient.patchInfo fetch this).2 !! k = this !! k.
Proof.
  intros Hk. revert this. fold (keeps k (UserClient.patchInfo fetch)).
  assert (∀ f, f ∈ [ "displayName"; "id"; "uri"; "images"; "totalFollowers";
                     "externalURL"; "email"; "product"; "country";
                     "explicitContent" ] → f ≠ k) as Hne
      by (intros f Hf ->; done).
  assert (∀ f data k', bool_decide
            (f ∈ [ "displayName"; "id"; "uri"; "images"; "totalFollowers";
                   "externalURL"; "email"; "product"; "country";
                   "explicitContent" ]) = true → keeps k (copy f data k'))
    as Hcopy.
  { intros f data k' Hf. apply copy_keeps, Hne.
    exact (bool_decide_eq_true_1 _ Hf). }
  unfold UserClient.patchInfo.
  apply bind_keeps; [apply lift_keeps|]. intros data.
  destruct (truthy data); simpl negb; cbv iota; [|apply lift_keeps].
  repeat (apply bind_keeps;
          [first [by apply Hcopy; vm_compute | apply lift_keeps] | intros ?]).
  apply bind_keeps.
  - match goal with |- context [truthy ?v] => destruct (truthy v) end.
    + repeat (apply bind_keeps; [apply lift_keeps | intros ?]).
      apply assign_keeps, Hne. apply (bool_decide_unpack _). by vm_compute.
    + by intros this.
  - intros _. by intros this.
Qed.

Lemma patchInfo_frame_witness :
  (UserClient.patchInfo
     (λ _ _, Return (JObj {[ "id" := JStr "u1"; "type" := JStr "other" ]}))
     UserClient.constructor).2 !! "type"
  = Some (JStr "user").
Proof.
  rewrite (patchInfo_frame _ UserClient.constructor "type").
  - reflexivity.
  - by apply (bool_decide_unpack (_ ∉ _)).
Defined.

(** The assignments of a method body, collected. *)
Lemma writes_app (w1 w2 : list (string * JSValue)) (this : gmap string JSValue) :
  writes (w1 ++ w2)%list this = writes w1 (writes w2 this).
Proof. unfold writes. by rewrite foldr_app. Qed.

(** A key is either written, to a value that does not depend on [this],
    or left alone. *)
Lemma writes_lookup (w : list (string * JSValue)) (k : string) :
  (∀ this this' : gmap string JSValue,
     writes w this !! k = writes w this' !! k)
  ∨ (∀ this : gmap string JSValue, writes w this !! k = this !! k).
Proof.
  induction w as [|[k' v] w IH]; [by right|].
  destruct (decide (k' = k)) as [->|Hne].
  - left. intros this this'. simpl. by rewrite !lookup_insert_eq.
  - destruct IH as [IH|IH]; [left|right]; intros; simpl;
      rewrite !lookup_insert_ne by done; apply IH.
Qed.

Lemma writes_idempotent (w : list (string * JSValue))
    (this : gmap string JSValue) :
  writes w (writes w this) = writes w this.
Proof.
  apply map_eq. intros k. destruct (writes_lookup w k) as [Hw|Hw].
  - apply Hw.
  - by rewrite Hw.
Qed.

Lemma lift_writer {A} (c : Completion A) : writer (lift c).
Proof. by exists c, []. Qed.

Lemma assign_writer (f : string) (v : JSValue) : writer (assign f v).
Proof. by exists (Return tt), [(f, v)]. Qed.

Lemma bind_writer {A B} (m : M (gmap string JSValue) A)
    (f : A → M (gmap string JSValue) B) :
  writer m → (∀ a, writer (f a)) → writer (m ≫= f).
Proof.
  intros (r & w & Hm) Hf. destruct r as [a|e].
  - destruct (Hf a) as (r' & w' & Hfa). exists r', (w' ++ w)%list.
    intros this. unfold mbind, M_bind. by rewrite Hm, Hfa, writes_app.
  - exists (Throw e), w. intros this. unfold mbind, M_bind. by rewrite Hm.
Qed.

Lemma copy_writer (f : string) (data : JSValue) (k : string) :
  writer (copy f data k).
Proof.
  apply bind_writer; [apply lift_writer|]. intros v. apply assign_writer.
Qed.

Lemma bind_writer_of_this {A} (m : M (gmap string JSValue) A)
    (f : A → M (gmap string JSValue) (gmap string JSValue)) :
  writer m → (∀ a, writer_of_this (f a)) → writer_of_this (m ≫= f).
Proof.
  intros (r & w & Hm) Hf. destruct r as [a|e].
  - destruct (Hf a) as (r' & w' & Hfa). exists r', (w' ++ w)%list.
    intros this. unfold mbind, M_bind. by rewrite Hm, Hfa, writes_app.
  - exists (Throw e), w. intros this. unfold mbind, M_bind. by rewrite Hm.
Qed.

Lemma patchInfo_writer_of_this
    (fetch : string → option FetchOptions → Completion JSValue) :
  writer_of_this (UserClient.patchInfo fetch).
Proof.
  unfold UserClient.patchInfo.
  apply bind_writer_of_this; [apply lift_writer|]. intros data.
  destruct (truthy data); simpl negb; cbv iota;
    [|by eexists (Throw _), []].
  repeat (apply bind_writer_of_this;
          [first [apply copy_writer | apply lift_writer] | intros ?]).
  apply bind_writer_of_this.
  - match goal with |- context [truthy ?v] => destruct (truthy v) end.
    + repeat (apply bind_writer; [apply lift_writer | intros ?]).
      apply assign_writer.
    + by exists (Return tt), [].
  - intros _. by exists (Return tt), [].
Qed.

(** X4.  [patchInfo] is idempotent: with the transport answering as
    before, a second call ends as the first did and leaves [this] as the
    first call left it. *)
Theorem patchInfo_idempotent
    (fetch : string → option FetchOptions → Completion JSValue)
    (this : gmap string JSValue) :
  UserClient.patchInfo fetch (UserClient.patchInfo fetch this).2
  = UserClient.patchInfo fetch this.
Proof.
  destruct (patchInfo_writer_of_this fetch) as (r & w & Hpatch).
  rewrite !Hpatch. simpl. by rewrite writes_idempotent.
Qed.

(** What [patchInfo] makes of a profile whose [followers] can be read. *)
Lemma patchInfo_object
    (fetch : string → option FetchOptions → Completion JSValue)
    (this o : gmap string JSValue) (total : JSValue) :
  fetch "/me" None = Return (JObj o) →
  get (prop o "followers") "total" = Return total →
  ∃ this', UserClient.patchInfo fetch this = (Return this', this')
    ∧ this' !! "displayName" = Some (prop o "display_name")
    ∧ this' !! "id" = Some (prop o "id")
    ∧ this' !! "uri" = Some (prop o "uri")
    ∧ this' !! "images" = Some (prop o "images")
    ∧ this' !! "totalFollowers" = Some total
    ∧ this' !! "externalURL" = Some (prop o "external_urls")
    ∧ this' !! "email" = Some (prop o "email")
    ∧ this' !! "product" = Some (prop o "product")
    ∧ this' !! "country" = Some (prop o "country")
    ∧ (∀ ec, prop o "explicit_content" = JObj ec →
         this' !! "explicitContent"
         = Some (JObj {[ "filterEnabled" := prop ec "filter_enabled";
                         "filterLocked" := prop ec "filter_locked" ]}))
    ∧ (truthy (prop o "explicit_content") = false →
         this' !! "explicitContent" = this !! "explicitContent").
Proof.
  intros Hfetch Htotal. unfold UserClient.patchInfo.
  erewrite M_bind_return; [|unfold lift; by rewrite Hfetch].
  cbv beta iota delta
    [copy assign modify lift get get_state negb
     mbind M_bind mret M_ret Completion_bind Completion_ret] in Htotal |- *.
  cbn [truthy]. rewrite Htotal. cbv beta iota.
  destruct (truthy (prop o "explicit_content")) eqn:Htruthy;
    [destruct (prop o "explicit_content") as [| | | | | |ec] eqn:Hcontent;
     try discriminate Htruthy|];
    (eexists; split; [reflexivity|]);
    split_and!;
    first [ by read_field
          | intros ec' Hec; first [ discriminate Hec
                                  | by rewrite Hec in Htruthy
                                  | injection Hec as <-; read_field ]
          | intros Hfalse; first [ discriminate Hfalse | read_field ] ].
Qed.

(** What [patchInfo] has done when [data.followers.total] throws. *)
Lemma patchInfo_no_followers_state
    (fetch : string → option FetchOptions → Completion JSValue)
    (this o : gmap string JSValue) :
  fetch "/me" None = Return (JObj o) →
  loosely_null (prop o "followers") = true →
  UserClient.patchInfo fetch this
  = (Throw TypeError,
     <["images" := prop o "images"]>
       (<["uri" := prop o "uri"]>
          (<["id" := prop o "id"]>
             (<["displayName" := prop o "display_name"]> this)))).
Proof.
  intros Hfetch Hnull. unfold UserClient.patchInfo.
  erewrite M_bind_return; [|unfold lift; by rewrite Hfetch].
  cbv beta iota delta
    [copy assign modify lift get get_state negb
     mbind M_bind mret M_ret Completion_bind Completion_ret].
  cbn [truthy].
  by destruct (prop o "followers").
Qed.

(** X5.  From a profile object whose [followers] can be read,
    [patchInfo] resolves to the patched [this], on which the eight copied
    fields hold what the profile has under the corresponding keys
    (undefined for a key the profile lacks) and [totalFollowers] holds
    [followers.total]. *)
Theorem patchInfo_copies_profile
    (fetch : string → option FetchOptions → Completion JSValue)
    (this o : gmap string JSValue) (total : JSValue) :
  fetch "/me" None = Return (JObj o) →
  get (prop o "followers") "total" = Return total →
  ∃ this', UserClient.patchInfo fetch this = (Return this', this')
    ∧ this' !! "displayName" = Some (prop o "display_name")
    ∧ this' !! "id" = Some (prop o "id")
    ∧ this' !! "uri" = Some (prop o "uri")
    ∧ this' !! "images" = Some (prop o "images")
    ∧ this' !! "totalFollowers" = Some total
    ∧ this' !! "externalURL" = Some (prop o "external_urls")
    ∧ this' !! "email" = Some (prop o "email")
    ∧ this' !! "product" = Some (prop o "product")
    ∧ this' !! "country" = Some (prop o "country").
Proof.
  intros Hfetch Htotal.
  destruct (patchInfo_object fetch this o total Hfetch Htotal)
    as (this' & Hpatch & Hname & Hid & Huri & Himages & Htot & Hurl
        & Hemail & Hproduct & Hcountry & _).
  by exists this'.
Qed.

Lemma patchInfo_copies_profile_witness :
  ∃ this',
    UserClient.patchInfo
      (λ _ _, Return (JObj {[ "id" := JStr "u1";
                              "followers" := JObj {[ "total" := JNum 7 ]} ]}))
      UserClient.constructor = (Return this', this')
    ∧ this' !! "id" = Some (JStr "u1")
    ∧ this' !! "totalFollowers" = Some (JNum 7)
    ∧ this' !! "email" = Some JUndefined.
Proof.
  destruct (patchInfo_copies_profile
              (λ _ _, Return (JObj {[ "id" := JStr "u1";
                                      "followers" := JObj {[ "total" := JNum 7 ]} ]}))
              UserClient.constructor
              {[ "id" := JStr "u1"; "followers" := JObj {[ "total" := JNum 7 ]} ]}
              (JNum 7) eq_refl)
    as (this' & Hpatch & _ & Hid & _ & _ & Htot & _ & Hemail & _).
  - reflexivity.
  - exists this'. split; [exact Hpatch|]. split; [exact Hid|].
    split; [exact Htot | exact Hemail].
Defined.

(** X6.  From a profile object whose [followers] is missing or null,
    [patchInfo] ends in a TypeError, after it has already overwritten
    [displayName], [id], [uri] and [images]; nothing else of [this] has
    changed. *)
Theorem patchInfo_missing_followers
    (fetch : string → option FetchOptions → Completion JSValue)
    (this o : gmap string JSValue) :
  fetch "/me" None = Return (JObj o) →
  loosely_null (prop o "followers") = true →
  UserClient.patchInfo fetch this
  = (Throw TypeError,
     <["images" := prop o "images"]>
       (<["uri" := prop o "uri"]>
          (<["id" := prop o "id"]>
             (<["displayName" := prop o "display_name"]> this)))).
Proof.
  intros Hfetch Hnull. by apply patchInfo_no_followers_state.
Qed.

Lemma patchInfo_missing_followers_witness :
  UserClient.patchInfo (λ _ _, Return (JObj {[ "id" := JStr "u1" ]}))
    {[ "id" := JStr "u0"; "email" := JStr "old" ]}
  = (Throw TypeError,
     <["images" := JUndefined]>
       (<["uri" := JUndefined]>
          (<["id" := JStr "u1"]>
             (<["displayName" := JUndefined]>
                {[ "id" := JStr "u0"; "email" := JStr "old" ]})))).
Proof.
  rewrite (patchInfo_missing_followers
             (λ _ _, Return (JObj {[ "id" := JStr "u1" ]})) _
             {[ "id" := JStr "u1" ]}) by reflexivity.
  reflexivity.
Defined.

(** X7.  On a successful [patchInfo], an [explicit_content] object of the
    profile becomes [explicitContent], with [filterEnabled] and
    [filterLocked] taken from [filter_enabled] and [filter_locked]; when
    the profile has no (or a falsy) [explicit_content], the
    [explicitContent] that [this] had before stays as it is. *)
Theorem patchInfo_explicitContent
    (fetch : string → option FetchOptions → Completion JSValue)
    (this o : gmap string JSValue) (total : JSValue) :
  fetch "/me" None = Return (JObj o) →
  get (prop o "followers") "total" = Return total →
  ∃ this', UserClient.patchInfo fetch this = (Return this', this')
    ∧ (∀ ec, prop o "explicit_content" = JObj ec →
         this' !! "explicitContent"
         = Some (JObj {[ "filterEnabled" := prop ec "filter_enabled";
                         "filterLocked" := prop ec "filter_locked" ]}))
    ∧ (truthy (prop o "explicit_content") = false →
         this' !! "explicitContent" = this !! "explicitContent").
Proof.
  intros Hfetch Htotal.
  destruct (patchInfo_object fetch this o total Hfetch Htotal)
    as (this' & Hpatch & _ & _ & _ & _ & _ & _ & _ & _ & _ & Hec & Hnone).
  by exists this'.
Qed.

Lemma patchInfo_explicitContent_witness :
  ∃ this',
    UserClient.patchInfo
      (λ _ _, Return (JObj {[ "followers" := JObj {[ "total" := JNum 7 ]} ]}))
      {[ "explicitContent" := JObj {[ "filterEnabled" := JBool true ]} ]}
    = (Return this', this')
    ∧ this' !! "explicitContent"
      = Some (JObj {[ "filterEnabled" := JBool true ]}).
Proof.
  destruct (patchInfo_explicitContent
              (λ _ _, Return (JObj {[ "followers" := JObj {[ "total" := JNum 7 ]} ]}))
              {[ "explicitContent" := JObj {[ "filterEnabled" := JBool true ]} ]}
              {[ "followers" := JObj {[ "total" := JNum 7 ]} ]}
              (JNum 7) eq_refl)
    as (this' & Hpatch & _ & Hstays).
  - reflexivity.
  - exists this'. split; [exact Hpatch|]. rewrite Hstays; reflexivity.
Defined.

(** ** Calls that need more than the response has *)

(** X8.  [getFollowingArtists] reads [fetchedData.artists.items]: on a
    truthy response whose [artists] is missing or null it ends in a
    TypeError, the cache helper is not called and the cache is
    untouched. *)
Theorem getFollowingArtists_without_artists {Cache Struct : Type}
    (fetch : string → option FetchOptions → Completion JSValue)
    (createCacheStructArray : string → JSValue → M Cache (list Struct))
    (options : option (gmap string JSValue)) (cache : Cache)
    (data artists : JSValue) :
  (∀ o, fetch "/me/following" o = Return data) →
  truthy data = true →
  get data "artists" = Return artists →
  loosely_null artists = true →
  UserClient.getFollowingArtists fetch createCacheStructArray options cache
  = (Throw TypeError, cache).
Proof.
  intros Hfetch Hdata Hartists Hnull. unfold UserClient.getFollowingArtists.
  cbv zeta.
  erewrite M_bind_return; [|unfold lift; by rewrite Hfetch].
  cbv beta. rewrite Hdata.
  erewrite M_bind_return; [|unfold lift; by rewrite Hartists].
  cbv beta. erewrite M_bind_throw; [reflexivity|].
  unfold lift. by destruct artists.
Qed.

Lemma getFollowingArtists_without_artists_witness :
  UserClient.getFollowingArtists
    (λ _ _, Return (JObj {[ "items" := JArr [] ]}))
    Cache.createCacheStructArray None Cache.empty
  = (Throw TypeError, Cache.empty).
Proof.
  apply (getFollowingArtists_without_artists _ _ None Cache.empty
           (JObj {[ "items" := JArr [] ]}) JUndefined);
    reflexivity.
Defined.

(** [x[0]] on strings: a character is returned whole, also when it takes
    more than one byte; of a character outside the basic plane only the
    high surrogate (here U+D83D, of U+1F600) is. *)
Example first_elem_of_strings :
  first_elem (JStr "abc") = Return (JStr "a")
  ∧ first_elem (JStr "été") = Return (JStr "é")
  ∧ first_elem (JStr "€5") = Return (JStr "€")
  ∧ first_elem (JStr "😀!")
    = Return (JStr (String (Ascii.ascii_of_N 237)
                      (String (Ascii.ascii_of_N 160)
                         (String (Ascii.ascii_of_N 189) ""))))
  ∧ first_elem (JStr "") = Return JUndefined.
Proof. repeat split. Qed.

(** X9.  [followsPlaylist] resolves to the first flag the users manager
    reports, to [false] when it reports an empty array, and rejects with
    a TypeError when the manager resolves to null or undefined. *)
Theorem followsPlaylist_first_flag
    (users_followsPlaylist : string → JSValue → Completion JSValue)
    (playlistID : string) (this : gmap string JSValue) (x : JSValue) :
  users_followsPlaylist playlistID (prop this "id") = Return x →
  (∀ b rest, x = JArr (JBool b :: rest) →
     UserClient.followsPlaylist users_followsPlaylist playlistID this
     = Return (JBool b))
  ∧ (x = JArr [] →
     UserClient.followsPlaylist users_followsPlaylist playlistID this
     = Return (JBool false))
  ∧ (loosely_null x = true →
     UserClient.followsPlaylist users_followsPlaylist playlistID this
     = Throw TypeError).
Proof.
  intros Hcall. unfold UserClient.followsPlaylist. rewrite Hcall.
  split; [|split].
  - intros b rest ->. by destruct b.
  - by intros ->.
  - by destruct x.
Qed.

Lemma followsPlaylist_first_flag_witness :
  UserClient.followsPlaylist (λ _ _, Return (JArr [JBool true; JBool false]))
    "p1" UserClient.constructor = Return (JBool true)
  ∧ UserClient.followsPlaylist (λ _ _, Return (JArr []))
      "p1" UserClient.constructor = Return (JBool false)
  ∧ UserClient.followsPlaylist (λ _ _, Return JNull)
      "p1" UserClient.constructor = Throw TypeError.
Proof.
  split; [|split].
  - eapply (followsPlaylist_first_flag
              (λ _ _, Return (JArr [JBool true; JBool false]))
              "p1" UserClient.constructor _ eq_refl).
    reflexivity.
  - apply (followsPlaylist_first_flag (λ _ _, Return (JArr []))
             "p1" UserClient.constructor _ eq_refl).
    reflexivity.
  - apply (followsPlaylist_first_flag (λ _ _, Return JNull)
             "p1" UserClient.constructor _ eq_refl).
    reflexivity.
Defined.

(** The user id is assigned before anything in [patchInfo] can throw. *)
Lemma patchInfo_sets_id
    (fetch : string → option FetchOptions → Completion JSValue)
    (this o : gmap string JSValue) :
  fetch "/me" None = Return (JObj o) →
  (UserClient.patchInfo fetch this).2 !! "id" = Some (prop o "id").
Proof.
  intros Hfetch.
  destruct (loosely_null (prop o "followers")) eqn:Hnull.
  - rewrite (patchInfo_no_followers_state _ _ _ Hfetch Hnull). simpl.
    read_field.
  - assert (∃ total, get (prop o "followers") "total" = Return total)
      as [total Htotal]
      by (destruct (prop o "followers"); try discriminate; by eexists).
    destruct (patchInfo_object fetch this o total Hfetch Htotal)
      as (this' & Hpatch & _ & Hid & _).
    by rewrite Hpatch.
Qed.

(** X10.  [createPlaylist] and [followsPlaylist] act for the user whose
    id is on [this]: that id, and no other, is what they hand to the
    playlists and the users manager.  On a freshly constructed UserClient
    it is undefined; once [patchInfo] has fetched a profile object it is
    the profile's [id], even if [patchInfo] itself ended in an error. *)
Theorem delegates_use_patched_id
    (playlists_create : JSValue → JSValue → Completion JSValue)
    (users_followsPlaylist : string → JSValue → Completion JSValue)
    (playlist : JSValue) (playlistID : string) :
  UserClient.createPlaylist playlists_create playlist UserClient.constructor
  = playlists_create JUndefined playlist
  ∧ (∀ e, users_followsPlaylist playlistID JUndefined = Throw e →
       UserClient.followsPlaylist users_followsPlaylist playlistID
         UserClient.constructor = Throw e)
  ∧ (∀ flag rest,
       users_followsPlaylist playlistID JUndefined
       = Return (JArr (JBool flag :: rest)) →
       UserClient.followsPlaylist users_followsPlaylist playlistID
         UserClient.constructor = Return (JBool flag))
  ∧ ∀ fetch (o this : gmap string JSValue),
      fetch "/me" None = Return (JObj o) →
      UserClient.createPlaylist playlists_create playlist
        (UserClient.patchInfo fetch this).2
      = playlists_create (prop o "id") playlist
      ∧ (∀ e, users_followsPlaylist playlistID (prop o "id") = Throw e →
           UserClient.followsPlaylist users_followsPlaylist playlistID
             (UserClient.patchInfo fetch this).2 = Throw e)
      ∧ (∀ flag rest,
           users_followsPlaylist playlistID (prop o "id")
           = Return (JArr (JBool flag :: rest)) →
           UserClient.followsPlaylist users_followsPlaylist playlistID
             (UserClient.patchInfo fetch this).2 = Return (JBool flag)).
Proof.
  split; [done|].
  split; [intros e He; unfold UserClient.followsPlaylist;
          change (prop UserClient.constructor "id") with JUndefined;
          by rewrite He|].
  split; [intros flag rest Hflag; unfold UserClient.followsPlaylist;
          change (prop UserClient.constructor "id") with JUndefined;
          rewrite Hflag; by destruct flag|].
  intros fetch o this Hfetch.
  assert (prop (UserClient.patchInfo fetch this).2 "id" = prop o "id") as Hid
    by (unfold prop at 1; by rewrite (patchInfo_sets_id _ _ _ Hfetch)).
  unfold UserClient.createPlaylist, UserClient.followsPlaylist.
  rewrite Hid. split; [done|]. split.
  - intros e He. by rewrite He.
  - intros flag rest Hflag. rewrite Hflag. by destruct flag.
Qed.

Lemma delegates_use_patched_id_witness :
  UserClient.createPlaylist (λ user _, Return user) JNull
    (UserClient.patchInfo (λ _ _, Return (JObj {[ "id" := JStr "u1" ]}))
       UserClient.constructor).2
  = Return (JStr "u1")
  ∧ UserClient.followsPlaylist
      (λ _ user, match user with
                 | JStr _ => Return (JArr [JBool true])
                 | _ => Throw (Rejected "no user")
                 end) "p1"
      (UserClient.patchInfo (λ _ _, Return (JObj {[ "id" := JStr "u1" ]}))
         UserClient.constructor).2
    = Return (JBool true)
  ∧ UserClient.followsPlaylist
      (λ _ user, match user with
                 | JStr _ => Return (JArr [JBool true])
                 | _ => Throw (Rejected "no user")
                 end) "p1" UserClient.constructor
    = Throw (Rejected "no user").
Proof.
  destruct (delegates_use_patched_id (λ user _, Return user)
              (λ _ user, match user with
                         | JStr _ => Return (JArr [JBool true])
                         | _ => Throw (Rejected "no user")
                         end) JNull "p1")
    as (_ & Hfresh & _ & Hpatched).
  destruct (Hpatched (λ _ _, Return (JObj {[ "id" := JStr "u1" ]}))
              {[ "id" := JStr "u1" ]} UserClient.constructor eq_refl)
    as (Hcreate & _ & Hfollows).
  split; [|split].
  - rewrite Hcreate. reflexivity.
  - apply (Hfollows true []). reflexivity.
  - apply Hfresh. reflexivity.
Defined.

(** ** Track and LinkedTrack objects *)

Ltac absent_field Hout :=
  rewrite lookup_insert_ne
    by (intros <-; apply Hout; by apply (bool_decide_unpack (_ ∈ _))).

(** X11.  The own properties of a LinkedTrack built from a raw object are
    [data] and its five fields; those of a Track are [data], its
    seventeen unconditional fields, and [linkedFrom] exactly when the raw
    object has [linked_from].  No other key of the raw object becomes a
    property, and the declared [codeImage] and [dominantColor] are never
    set. *)
Theorem constructors_own_properties (o : gmap string JSValue) :
  (∃ this, Track.new Track.LinkedTrack (JObj o) = Return this
     ∧ ∀ f, is_Some (this !! f)
            ↔ f ∈ [ "data"; "externalUrls"; "href"; "id"; "type"; "uri" ])
  ∧ (∃ this, Track.new Track.Track (JObj o) = Return this
       ∧ ∀ f, is_Some (this !! f)
              ↔ f ∈ [ "data"; "availableMarkets"; "discNumber"; "duration";
                      "explicit"; "externalIds"; "externalUrls"; "href";
                      "id"; "name"; "popularity"; "previewUrl";
                      "trackNumber"; "type"; "uri"; "playable";
                      "restrictions"; "local" ]
                ∨ (f = "linkedFrom" ∧ is_Some (o !! "linked_from"))).
Proof.
  split.
  - run_constructor. eexists. split; [reflexivity|]. intros f. split.
    + intros Hsome.
      destruct (decide (f ∈ [ "data"; "externalUrls"; "href"; "id"; "type";
                              "uri" ])) as [|Hout]; [done|].
      exfalso. revert Hsome. repeat absent_field Hout.
      rewrite lookup_empty. by intros [? ?].
    + intros Hin.
      repeat (apply elem_of_cons in Hin as [->|Hin]; [by eexists|]).
      by apply elem_of_nil in Hin.
  - run_constructor.
    destruct (o !! "linked_from") as [v|] eqn:Hlinked.
    + rewrite bool_decide_eq_true_2 by eauto.
      eexists. split; [reflexivity|]. intros f. split.
      * intros Hsome.
        destruct (decide (f = "linkedFrom")) as [->|Hne]; [by right; eauto|].
        left. rewrite lookup_insert_ne in Hsome by done.
        match goal with |- f ∈ ?l => destruct (decide (f ∈ l)) as [|Hout] end;
          [done|].
        exfalso. revert Hsome. repeat absent_field Hout.
        rewrite lookup_empty. by intros [? ?].
      * intros [Hin|[-> _]]; [|by eexists].
        repeat (apply elem_of_cons in Hin as [->|Hin]; [by eexists|]).
        by apply elem_of_nil in Hin.
    + rewrite bool_decide_eq_false_2 by (intros [? ?]; discriminate).
      eexists. split; [reflexivity|]. intros f. split.
      * intros Hsome. left.
        match goal with |- f ∈ ?l => destruct (decide (f ∈ l)) as [|Hout] end;
          [done|].
        exfalso. revert Hsome. repeat absent_field Hout.
        rewrite lookup_empty. by intros [? ?].
      * intros [Hin|[_ [? ?]]]; [|discriminate].
        repeat (apply elem_of_cons in Hin as [->|Hin]; [by eexists|]).
        by apply elem_of_nil in Hin.
Qed.

Lemma constructors_own_properties_witness :
  ∃ this, Track.new Track.Track
            (JObj {[ "id" := JStr "t1"; "album" := JObj ∅ ]}) = Return this
    ∧ ¬ is_Some (this !! "album")
    ∧ ¬ is_Some (this !! "codeImage")
    ∧ ¬ is_Some (this !! "linkedFrom")
    ∧ is_Some (this !! "local").
Proof.
  destruct (constructors_own_properties
              {[ "id" := JStr "t1"; "album" := JObj ∅ ]})
    as (_ & this & Hnew & Hown).
  exists this. split; [exact Hnew|].
  assert (∀ f, f ∈ [ "album"; "codeImage"; "linkedFrom" ] →
               ¬ is_Some (this !! f)) as Hnot.
  { intros f Hf Hsome. apply Hown in Hsome as [Hin|[_ [? Hlinked]]].
    - repeat (apply elem_of_cons in Hf as [->|Hf];
              [by apply (bool_decide_pack _) in Hin|]).
      by apply elem_of_nil in Hf.
    - by vm_compute in Hlinked. }
  split; [|split; [|split]].
  - apply Hnot. by apply (bool_decide_unpack (_ ∈ _)).
  - apply Hnot. by apply (bool_decide_unpack (_ ∈ _)).
  - apply Hnot. by apply (bool_decide_unpack (_ ∈ _)).
  - apply Hown. left. by apply (bool_decide_unpack (_ ∈ _)).
Defined.

(** X12.  Given null or undefined instead of a raw object, both
    constructors throw a TypeError.  Given a boolean, a number or a
    string, [new LinkedTrack] succeeds, with its five fields undefined,
    while [new Track] throws a TypeError: its [in] test needs an
    object. *)
Theorem constructors_on_non_objects (data : JSValue) :
  (loosely_null data = true →
   Track.new Track.LinkedTrack data = Throw TypeError
   ∧ Track.new Track.Track data = Throw TypeError)
  ∧ ((∃ b, data = JBool b) ∨ (∃ n, data = JNum n) ∨ (∃ s, data = JStr s) →
     Track.new Track.Track data = Throw TypeError
     ∧ ∃ this, Track.new Track.LinkedTrack data = Return this
         ∧ this !! "data" = Some data
         ∧ ∀ k f, (k, f) ∈ Track.LinkedTrack_fields →
             this !! f = Some JUndefined).
Proof.
  split.
  - intros Hnull. by destruct data.
  - intros [[b ->]|[[n ->]|[s ->]]];
      (split; [reflexivity|]);
      (eexists; split; [reflexivity|]);
      (split; [read_field|]);
      intros k f Hin; each_field Hin; read_field.
Qed.

Lemma constructors_on_non_objects_witness :
  Track.new Track.Track JNull = Throw TypeError
  ∧ Track.new Track.Track (JStr "spotify:track:1") = Throw TypeError
  ∧ ∃ this, Track.new Track.LinkedTrack (JStr "spotify:track:1") = Return this
      ∧ this !! "uri" = Some JUndefined.
Proof.
  split; [|split].
  - destruct (constructors_on_non_objects JNull) as [Hnull _].
    apply Hnull. reflexivity.
  - destruct (constructors_on_non_objects (JStr "spotify:track:1"))
      as [_ Hprimitive].
    apply Hprimitive. eauto.
  - destruct (constructors_on_non_objects (JStr "spotify:track:1"))
      as [_ Hprimitive].
    destruct Hprimitive as (_ & this & Hnew & _ & Hfields); [eauto|].
    exists this. split; [exact Hnew|].
    apply (Hfields "uri" "uri"). by apply (bool_decide_unpack (_ ∈ _)).
Defined.

(** X13.  On a track built from a raw object the [artists] accessor
    returns no artists: [this.data] is that object, which has no [map]
    to call, and the evaluation ends in a TypeError before any
    SimplifiedArtist is constructed.  (Only a track whose [data] is an
    array gets through, with one artist per element.) *)
Theorem artists_of_raw_object
    (SimplifiedArtist : JSValue → Completion JSValue)
    (o : gmap string JSValue) :
  (∃ this, Track.new Track.Track (JObj o) = Return this
     ∧ Track.artists SimplifiedArtist this = Throw TypeError)
  ∧ ∀ elems, ∃ this, Track.new Track.Track (JArr elems) = Return this
      ∧ Track.artists SimplifiedArtist this
        = (ys ← mapC SimplifiedArtist elems; mret (JArr ys)).
Proof.
  split.
  - destruct (Track_object o) as (this & Hnew & Hdata & _).
    exists this. split; [done|].
    unfold Track.artists, prop. by rewrite Hdata.
  - intros elems. eexists. split; [reflexivity|].
    unfold Track.artists, prop.
    repeat (rewrite lookup_insert_ne by discriminate).
    by rewrite lookup_insert_eq.
Qed.

(** X14.  [getCodeImage] and [getURIData] ask [util] about the uri that
    the constructor copied: on a Track and on a LinkedTrack built from
    the same raw object they make the same call, with the raw object's
    [uri] (undefined when it has none). *)
Theorem code_image_reads_raw_uri
    (util_getCodeImage util_getURIData : JSValue → Completion JSValue)
    (o : gmap string JSValue) :
  ∃ track linked,
    Track.new Track.Track (JObj o) = Return track
    ∧ Track.new Track.LinkedTrack (JObj o) = Return linked
    ∧ Track.getCodeImage util_getCodeImage track
      = util_getCodeImage (prop o "uri")
    ∧ Track.getCodeImage util_getCodeImage linked
      = util_getCodeImage (prop o "uri")
    ∧ Track.getURIData util_getURIData track
      = util_getURIData (prop o "uri")
    ∧ Track.getURIData util_getURIData linked
      = util_getURIData (prop o "uri").
Proof.
  destruct (Track_object o)
    as (track & Htrack & _ & _ & _ & _ & _ & _ & _ & _ & _ & _ & _ & _
        & _ & _ & Huri & _).
  destruct (LinkedTrack_object o)
    as (linked & Hlinked & _ & _ & _ & _ & _ & Huri').
  exists track, linked. split; [done|]. split; [done|].
  unfold Track.getCodeImage, Track.getURIData, prop.
  by rewrite Huri, Huri'.
Qed.

(** ** Responses that are neither an answer nor null *)

(** X15.  A response that is falsy without being null or undefined
    ([false], [0], the empty string) is read in three ways:
    [followsArtists] and [followsUsers] take it for no answer and
    resolve to one [false] per id, the list calls resolve to the empty
    array, and [saveAlbums] and [removeAlbums] take it for success and
    resolve to [true]. *)
Theorem falsy_responses {Cache Struct SavedStruct : Type}
    (fetch : string → option FetchOptions → Completion JSValue)
    (createCacheStructArray : string → JSValue → M Cache (list Struct))
    (createCacheSavedStructArray : string → JSValue → M Cache (list SavedStruct))
    (x : JSValue) (ids : list string) (options : option (gmap string JSValue))
    (cache : Cache) :
  (∀ path o, fetch path o = Return x) →
  truthy x = false → loosely_null x = false →
  UserClient.followsArtists fetch ids
  = Return (JArr (JBool <$> replicate (length ids) false))
  ∧ UserClient.followsUsers fetch ids
    = Return (JArr (JBool <$> replicate (length ids) false))
  ∧ UserClient.saveAlbums fetch ids = Return true
  ∧ UserClient.removeAlbums fetch ids = Return true
  ∧ UserClient.getPlaylists fetch createCacheStructArray options cache
    = (Return [], cache)
  ∧ UserClient.getFollowingArtists fetch createCacheStructArray options cache
    = (Return [], cache)
  ∧ UserClient.getTopTracks fetch createCacheStructArray options cache
    = (Return [], cache)
  ∧ UserClient.getTopArtists fetch createCacheStructArray options cache
    = (Return [], cache)
  ∧ UserClient.getSavedAlbums fetch createCacheSavedStructArray options cache
    = (Return [], cache).
Proof.
  intros Hfetch Hfalsy Hpresent.
  unfold UserClient.followsArtists, UserClient.followsUsers,
    UserClient.saveAlbums, UserClient.removeAlbums, UserClient.getPlaylists,
    UserClient.getFollowingArtists, UserClient.getTopTracks,
    UserClient.getTopArtists, UserClient.getSavedAlbums.
  cbv zeta.
  split_and!;
    first [ rewrite Hfetch; simpl; by rewrite ?Hfalsy, ?Hpresent, ?all_false_flags
          | erewrite M_bind_return; [|unfold lift; by rewrite Hfetch];
            cbv beta; by rewrite Hfalsy ].
Qed.

Lemma falsy_responses_witness :
  UserClient.followsArtists (λ _ _, Return (JBool false)) ["id1"; "id2"]
  = Return (JArr [JBool false; JBool false])
  ∧ UserClient.saveAlbums (λ _ _, Return (JBool false)) ["id1"] = Return true.
Proof.
  destruct (falsy_responses (λ _ _, Return (JBool false))
              Cache.createCacheStructArray Cache.createCacheStructArray
              (JBool false) ["id1"; "id2"] None Cache.empty
              (λ _ _, eq_refl) eq_refl eq_refl)
    as (Hfollows & _).
  destruct (falsy_responses (λ _ _, Return (JBool false))
              Cache.createCacheStructArray Cache.createCacheStructArray
              (JBool false) ["id1"] None Cache.empty
              (λ _ _, eq_refl) eq_refl eq_refl)
    as (_ & _ & Hsave & _).
  split; [exact Hfollows | exact Hsave].
Defined.

(** X16.  [followsArtists] and [followsUsers] do not check an answer
    against the ids: an array response is handed on as it is, whatever
    its length and whatever its elements, and so is an object. *)
Theorem follows_hands_on_response
    (fetch : string → option FetchOptions → Completion JSValue)
    (ids : list string) (x : JSValue) :
  (∀ path o, fetch path o = Return x) →
  (∃ elems, x = JArr elems) ∨ (∃ o, x = JObj o) →
  UserClient.followsArtists fetch ids = Return x
  ∧ UserClient.followsUsers fetch ids = Return x.
Proof.
  intros Hfetch Hx.
  assert (truthy x = true) as Htruthy by (by destruct Hx as [[? ->]|[? ->]]).
  split.
  - by apply followsArtists_truthy.
  - by apply followsUsers_truthy.
Qed.

Lemma follows_hands_on_response_witness :
  UserClient.followsArtists (λ _ _, Return (JArr [JBool true]))
    ["id1"; "id2"; "id3"]
  = Return (JArr [JBool true]).
Proof.
  apply (follows_hands_on_response (λ _ _, Return (JArr [JBool true]))
           ["id1"; "id2"; "id3"] (JArr [JBool true]) (λ _ _, eq_refl)).
  left. by eexists.
Defined.
